(** * Document ingestion pipeline of rag-chat-ui (app/api/upload/route.ts)

    A shallow embedding of the upload route: the text segmenter
    [splitTextIntoChunks], the embedding call with bounded retry
    [generateEmbeddingWithRetry], the batch scheduler
    [processChunksInBatches] and the tail of the [POST] handler that
    upserts the vectors, followed by the properties of each component.

    Conventions.
    - A JavaScript string is the list of its UTF-16 code units.
    - Indices and lengths are [Z], as JavaScript numbers holding integers;
      [maxChars] and [overlap] are integers.
    - The external services (embedding API, vector store, uuid and clock)
      are oracles passed as section variables; what the code does with their
      answers is modelled, not the services. *)

From Stdlib Require Import List ZArith Lia Bool String Ascii Sorted.
From Equations Require Import Equations.
Import ListNotations.
Local Open Scope list_scope.
Local Open Scope Z_scope.

(* ===================================================================== *)
(** ** JavaScript strings *)
(* ===================================================================== *)

Module JS.

Definition code_unit := N.
Definition jsstring := list code_unit.

(** A string literal of the source, as code units (ASCII only). *)
Definition js (s : string) : jsstring :=
  map N_of_ascii (list_ascii_of_string s).

Definition len {A} (s : list A) : Z := Z.of_nat (List.length s).

Definition LF : code_unit := 10%N.
Definition CR : code_unit := 13%N.
Definition SP : code_unit := 32%N.

(** ECMAScript WhiteSpace and LineTerminator code points: the class [\s] of
    regular expressions and the characters removed by [String.prototype.trim]. *)
Definition is_ws (c : code_unit) : bool :=
  ((9 <=? c) && (c <=? 13) || (c =? 32) || (c =? 160) || (c =? 5760)
   || (8192 <=? c) && (c <=? 8202) || (c =? 8232) || (c =? 8233)
   || (c =? 8239) || (c =? 8287) || (c =? 12288) || (c =? 65279))%N.

Fixpoint eqb (a b : jsstring) : bool :=
  match a, b with
  | [], [] => true
  | x :: a', y :: b' => (x =? y)%N && eqb a' b'
  | _, _ => false
  end.

(** [s[i]]: [None] stands for [undefined] (index out of range). *)
Definition charAt (s : jsstring) (i : Z) : option code_unit :=
  if i <? 0 then None else nth_error s (Z.to_nat i).

(** [s.slice(start, end)] with the relative-index rule for negative
    arguments. *)
Definition clamp_index {A} (s : list A) (k : Z) : Z :=
  if k <? 0 then Z.max (len s + k) 0 else Z.min k (len s).

Definition slice {A} (s : list A) (start stop : Z) : list A :=
  let from := clamp_index s start in
  let to := clamp_index s stop in
  firstn (Z.to_nat (to - from)) (skipn (Z.to_nat from) s).

(** [s.slice(start)] *)
Definition slice_from {A} (s : list A) (start : Z) : list A :=
  slice s start (len s).

Fixpoint trimStart (s : jsstring) : jsstring :=
  match s with
  | [] => []
  | c :: r => if is_ws c then trimStart r else s
  end.

Definition trimEnd (s : jsstring) : jsstring := rev (trimStart (rev s)).

Definition trim (s : jsstring) : jsstring := trimEnd (trimStart s).

(** A string that does not begin with white space. *)
Definition starts_clean (s : jsstring) : Prop :=
  match s with
  | [] => True
  | c :: _ => is_ws c = false
  end.

(** [s.replace(/\r\n/g, '\n')] *)
Fixpoint replace_crlf (s : jsstring) : jsstring :=
  match s with
  | [] => []
  | c :: r =>
      match r with
      | d :: r' =>
          if ((c =? CR) && (d =? LF))%N then LF :: replace_crlf r'
          else c :: replace_crlf r
      | [] => [c]
      end
  end.

(** [s.replace(/\r/g, '\n')] *)
Definition replace_cr (s : jsstring) : jsstring :=
  map (fun c => if (c =? CR)%N then LF else c) s.

(** [s.replace(/\s+/g, ' ')]: every maximal run of white space becomes one
    space (emitted when the run ends). *)
Fixpoint collapse_ws (s : jsstring) : jsstring :=
  match s with
  | [] => []
  | c :: r =>
      if is_ws c then
        match r with
        | d :: _ => if is_ws d then collapse_ws r else SP :: collapse_ws r
        | [] => [SP]
        end
      else c :: collapse_ws r
  end.

Fixpoint isPrefix (p s : jsstring) : bool :=
  match p, s with
  | [], _ => true
  | x :: p', y :: s' => (x =? y)%N && isPrefix p' s'
  | _ :: _, [] => false
  end.

(** [s.includes(needle)] *)
Fixpoint includes (s needle : jsstring) : bool :=
  isPrefix needle s ||
  match s with
  | [] => false
  | _ :: s' => includes s' needle
  end.

(** Upper-casing of one code unit on the Basic Latin block, where it is the
    ECMAScript mapping; other code units are left as they are.  Used to run
    the segmenter on ASCII texts. *)
Definition asciiToUpperCase (c : code_unit) : jsstring :=
  if ((97 <=? c) && (c <=? 122))%N then [(c - 32)%N] else [c].

End JS.
Import JS.

(* ===================================================================== *)
(** ** Configuration constants (route.ts, lines 16-19 and 327) *)
(* ===================================================================== *)

Definition BATCH_SIZE : nat := 10.
Definition DELAY_BETWEEN_BATCHES : Z := 5000.
Definition MAX_RETRIES : nat := 3.
Definition BASE_RETRY_DELAY : Z := 1000.
Definition UPSERT_BATCH_SIZE : nat := 100.

(* ===================================================================== *)
(** ** Segmenter: [splitTextIntoChunks] (route.ts, lines 21-102) *)
(* ===================================================================== *)

(** [find_down p i n] is the loop [for (; ...; i--)] run for at most [n]
    positions downwards from [i], stopping at the first position where [p]
    holds. *)
Fixpoint find_down (p : Z -> bool) (i : Z) (n : nat) : option Z :=
  match n with
  | O => None
  | S n' => if p i then Some i else find_down p (i - 1) n'
  end.

(** [for (let i = hi; i >= lo; i--) if (p i) { ...; break }] *)
Definition search_back (p : Z -> bool) (hi lo : Z) : option Z :=
  find_down p hi (Z.to_nat (hi - lo + 1)).

(** [Math.max(startIndex + maxChars - 200, startIndex + maxChars * 0.7)],
    as the least integer [i] that passes the loop test [i >= searchStart]:
    the second operand is rounded up, [ceil (7 * maxChars / 10)].  (The
    double [maxChars * 0.7] lies within a rounding error of [7 * maxChars / 10]
    and never above it when that quotient is an integer, so for the sizes a
    text can have the integers [i] that pass the test are the same.) *)
Definition searchStart (startIndex maxChars : Z) : Z :=
  Z.max (startIndex + maxChars - 200) (startIndex + (7 * maxChars + 9) / 10).

Definition is_terminator (c : code_unit) : bool :=
  ((c =? 46) || (c =? 33) || (c =? 63))%N.

Inductive iteration : Type :=
| Break (chunks : list jsstring)
| Continue (startIndex : Z) (chunks : list jsstring).

Section Segmenter.

(** [c.toUpperCase()] for a one-unit string [c] (the Unicode case mapping of
    the host; its result may be longer than one unit). *)
Variable toUpperCase : code_unit -> jsstring.

(** Lines 54-59: the test made at position [i] of the sentence search. *)
Definition sentence_end_at (cleanedText : jsstring) (i : Z) : bool :=
  match charAt cleanedText i with
  | Some char =>
      if is_terminator char then
        match charAt cleanedText (i + 1), charAt cleanedText (i + 2) with
        | Some nextChar, Some charAfterNext =>
            (nextChar =? SP)%N && JS.eqb [charAfterNext] (toUpperCase charAfterNext)
        | _, _ => false
        end
      else false
  | None => false
  end.

(** Line 69 *)
Definition space_at (cleanedText : jsstring) (i : Z) : bool :=
  match charAt cleanedText i with
  | Some c => (c =? SP)%N
  | None => false
  end.

(** Lines 49-74: the end of a non-final chunk. *)
Definition chunkEndIndex (cleanedText : jsstring) (maxChars startIndex : Z) : Z :=
  let endIndex := startIndex + maxChars in
  let searchStart := searchStart startIndex maxChars in
  let chunkEndIndex :=
    match search_back (sentence_end_at cleanedText) endIndex searchStart with
    | Some i => i + 1
    | None => endIndex
    end in
  if chunkEndIndex =? endIndex then
    match search_back (space_at cleanedText) endIndex searchStart with
    | Some i => i
    | None => chunkEndIndex
    end
  else chunkEndIndex.

Definition push_if_substantial (chunks : list jsstring) (chunk : jsstring)
  : list jsstring :=
  if len chunk >? 50 then chunks ++ [chunk] else chunks.

(** Lines 37-91: one pass through the body of the [while] loop. *)
Definition loop_body (cleanedText : jsstring) (maxChars overlap : Z)
    (startIndex : Z) (chunks : list jsstring) : iteration :=
  let endIndex := startIndex + maxChars in
  if endIndex >=? len cleanedText then
    let finalChunk := trim (slice_from cleanedText startIndex) in
    Break (push_if_substantial chunks finalChunk)
  else
    let chunkEndIndex := chunkEndIndex cleanedText maxChars startIndex in
    let chunk := trim (slice cleanedText startIndex chunkEndIndex) in
    let chunks := push_if_substantial chunks chunk in
    let nextStart := Z.max (chunkEndIndex - overlap) (startIndex + 1) in
    let startIndex := if nextStart >=? chunkEndIndex then chunkEndIndex else nextStart in
    Continue startIndex chunks.

(** Lines 36-92: the [while] loop, run for at most [fuel] iterations;
    [None] when the loop is still running after them. *)
Fixpoint split_loop (fuel : nat) (cleanedText : jsstring) (maxChars overlap : Z)
    (startIndex : Z) (chunks : list jsstring) : option (list jsstring) :=
  match fuel with
  | O => None
  | S fuel' =>
      if startIndex <? len cleanedText then
        match loop_body cleanedText maxChars overlap startIndex chunks with
        | Break chunks' => Some chunks'
        | Continue startIndex' chunks' =>
            split_loop fuel' cleanedText maxChars overlap startIndex' chunks'
        end
      else Some chunks
  end.

(** Lines 23-27 *)
Definition clean (text : jsstring) : jsstring :=
  trim (collapse_ws (replace_cr (replace_crlf text))).

(** [splitTextIntoChunks] with the loop bounded by [fuel] iterations. *)
Definition splitTextIntoChunks_fuel (fuel : nat) (text : jsstring)
    (maxChars overlap : Z) : option (list jsstring) :=
  let cleanedText := clean text in
  if len cleanedText <=? maxChars then Some [cleanedText]
  else
    option_map (filter (fun chunk => len chunk >=? 50))
      (split_loop fuel cleanedText maxChars overlap 0 []).

(** [splitTextIntoChunks]: one more iteration than the text has characters
    is enough whenever [maxChars] is positive (see [split_loop_terminates]);
    [None] means that the loop does not stop within that bound. *)
Definition splitTextIntoChunks (text : jsstring) (maxChars overlap : Z)
  : option (list jsstring) :=
  splitTextIntoChunks_fuel (S (List.length (clean text))) text maxChars overlap.

End Segmenter.

(* ===================================================================== *)
(** ** Effects: outcomes of calls that may throw *)
(* ===================================================================== *)

(** The result of running a piece of code: it returns a value or throws.
    A thrown value is kept as the message the handler reads from it
    ([error instanceof Error ? error.message : String(error)]); [None] is a
    message that is [undefined] or [null]. *)
Inductive outcome (A : Type) : Type :=
| Returned (a : A)
| Thrown (errorMessage : option jsstring).
Arguments Returned {A} a.
Arguments Thrown {A} errorMessage.

(** [await Promise.all(promises)]: all the values in the order of the
    promises, or a rejection when one of them rejects. *)
Fixpoint promise_all {A} (promises : list (outcome A)) : outcome (list A) :=
  match promises with
  | [] => Returned []
  | Returned a :: rest =>
      match promise_all rest with
      | Returned l => Returned (a :: l)
      | Thrown e => Thrown e
      end
  | Thrown e :: _ => Thrown e
  end.

(** [array.map((x, index) => f(x, index))], indices counted from [k]. *)
Fixpoint map_indexed {A B} (f : A -> nat -> B) (k : nat) (l : list A) : list B :=
  match l with
  | [] => []
  | x :: r => f x k :: map_indexed f (S k) r
  end.

(** [results.filter(result => result !== null)] *)
Fixpoint filter_non_null {A} (l : list (option A)) : list A :=
  match l with
  | [] => []
  | Some a :: r => a :: filter_non_null r
  | None :: r => filter_non_null r
  end.

(* ===================================================================== *)
(** ** Embedder: [generateEmbeddingWithRetry] (route.ts, lines 112-143) *)
(* ===================================================================== *)

Section Embedder.

(** The numbers of an embedding vector; they are passed through untouched. *)
Variable number : Type.

Definition embedding := list number.

(** What one request to [genAI.models.embedContent] does: it resolves, and
    [result.embeddings?.[0]?.values] is an array or [undefined] ([None]), or
    it rejects with an error, kept as the message that the [catch] block
    reads from it.  Rejections from which the [catch] block cannot read a
    message are added by [any_response] further down. *)
Inductive api_response : Type :=
| Resolved (values : option embedding)
| Rejected (errorMessage : option jsstring).

(** What a task does that the outside can observe. *)
Inductive event : Type :=
| Request (chunk : jsstring)
| Wait (ms : Z).

(** The state threaded through one embedding task: the number of requests
    it has sent and its trace. *)
Record world : Type := { requests : nat; log : list event }.

Definition world0 : world := {| requests := 0; log := [] |}.

(** [await delay(ms)] *)
Definition delay (ms : Z) (w : world) : world :=
  {| requests := requests w; log := log w ++ [Wait ms] |}.

(** [await genAI.models.embedContent(...)] against a service whose answer
    to the [n]-th request of the task is [api n]. *)
Definition embedContent (api : nat -> api_response) (chunk : jsstring)
    (w : world) : outcome (option embedding) * world :=
  let w' := {| requests := S (requests w); log := log w ++ [Request chunk] |} in
  match api (requests w) with
  | Resolved values => (Returned values, w')
  | Rejected errorMessage => (Thrown errorMessage, w')
  end.

(** Line 127 *)
Definition is_rate_limit (errorMessage : option jsstring) : bool :=
  match errorMessage with
  | Some m => includes m (js "429") || includes m (js "Too Many Requests")
  | None => false
  end.

(** Line 123: [embedding && embedding.length > 0 ? embedding : null] *)
Definition non_empty_or_null (values : option embedding) : option embedding :=
  match values with
  | Some embedding => if len embedding >? 0 then Some embedding else None
  | None => None
  end.

(** Lines 112-143, for a service whose rejections carry a message that the
    [catch] block can read; [generateEmbeddingWithRetry_any] further down
    is the call for any thrown value and agrees with this one on such
    services ([generateEmbeddingWithRetry_any_readable]).  The [try] block
    is the first clause, the [catch] block the second; [retryCount] is a
    natural number, as it starts at 0 and only grows by one, so that
    [Math.pow(2, retryCount)] is an integer power. *)
Equations? generateEmbeddingWithRetry (api : nat -> api_response)
    (chunk : jsstring) (retryCount : nat) (w : world)
    : outcome (option embedding) * world
    by wf (MAX_RETRIES - retryCount)%nat lt :=
  generateEmbeddingWithRetry api chunk retryCount w
    with embedContent api chunk w => {
    | (Returned values, w1) => (Returned (non_empty_or_null values), w1);
    | (Thrown errorMessage, w1) with is_rate_limit errorMessage => {
      | true with lt_dec retryCount MAX_RETRIES => {
        | left _ =>
            let retryDelay := BASE_RETRY_DELAY * 2 ^ Z.of_nat retryCount in
            generateEmbeddingWithRetry api chunk (S retryCount) (delay retryDelay w1);
        | right _ => (Returned None, w1) };
      | false => (Returned None, w1) } }.
Proof.
  clear retryDelay. unfold MAX_RETRIES in *.
  do 3 (destruct retryCount as [|retryCount]; [lia|]). lia.
Qed.

End Embedder.

Arguments Resolved {number} values.
Arguments Rejected {number} errorMessage.

(* ===================================================================== *)
(** ** Batch scheduler: [processChunksInBatches] (route.ts, lines 146-206) *)
(* ===================================================================== *)

Section Pipeline.

Variable number : Type.

Record metadata : Type := {
  text : jsstring;
  source : jsstring;
  chunk_index : nat;
  total_chunks : nat;
  timestamp : jsstring;
  batch_number : nat
}.

Record vector : Type := {
  id : jsstring;
  values : embedding number;
  meta : metadata
}.

(** The embedding service as the tasks see it: [service g n] answers the
    [n]-th request made for the chunk of global index [g].  The tasks of a
    batch run concurrently; whatever their interleaving, each of them sees
    one such sequence of answers. *)
Variable service : nat -> nat -> api_response number.

(** [uuidv4()] and [new Date().toISOString()] as drawn by the task of the
    chunk of global index [g]. *)
Variable uuidv4 : nat -> jsstring.
Variable toISOString : nat -> jsstring.

(** Lines 163-188: the task of one chunk of a batch that starts at [i]. *)
Definition embed_task (fileName : jsstring) (totalChunks i batchNumber : nat)
    (chunk : jsstring) (batchIndex : nat) : outcome (option vector) :=
  let globalIndex := (i + batchIndex)%nat in
  let w := if (0 <? batchIndex)%nat then delay 200 world0 else world0 in
  match fst (generateEmbeddingWithRetry number (service globalIndex) chunk 0 w) with
  | Returned (Some embedding) =>
      Returned (Some {| id := uuidv4 globalIndex;
                        values := embedding;
                        meta := {| text := chunk;
                                   source := fileName;
                                   chunk_index := globalIndex;
                                   total_chunks := totalChunks;
                                   timestamp := toISOString globalIndex;
                                   batch_number := batchNumber |} |})
  | Returned None => Returned None
  | Thrown e => Thrown e
  end.

(** Lines 155-203: the [for] loop over the batches, from the batch that
    starts at [i], with the vectors collected so far.  The progress callback
    and the pause between batches change no value and are left out. *)
Equations? batch_loop (chunks : list jsstring) (fileName : jsstring)
    (i : nat) (vectors : list vector) : outcome (list vector)
    by wf (List.length chunks - i)%nat lt :=
  batch_loop chunks fileName i vectors with lt_dec i (List.length chunks) => {
    | left _
        with promise_all
               (map_indexed
                  (embed_task fileName (List.length chunks) i (i / BATCH_SIZE + 1))
                  0%nat
                  (slice chunks (Z.of_nat i) (Z.of_nat (i + BATCH_SIZE)))) => {
        | Returned batchResults =>
            batch_loop chunks fileName (i + BATCH_SIZE)
              (vectors ++ filter_non_null batchResults);
        | Thrown e => Thrown e };
    | right _ => Returned vectors }.
Proof. unfold BATCH_SIZE. lia. Qed.

Definition processChunksInBatches (chunks : list jsstring) (fileName : jsstring)
  : outcome (list vector) :=
  batch_loop chunks fileName 0 [].

(* ===================================================================== *)
(** ** Upserter and the tail of [POST] (route.ts, lines 286-365) *)
(* ===================================================================== *)

(** The vector store: the batches handed to [index.upsert], in call order,
    and those it accepted.  A rejected batch leaves the store as it was. *)
Record store : Type := {
  submitted : list (list vector);
  stored : list (list vector)
}.

(** Whether the [n]-th call of [index.upsert] (counted from 0) rejects. *)
Variable upsert_fails : nat -> bool.

(** [await index.upsert(batch)] *)
Definition upsert (batch : list vector) (st : store) : outcome unit * store :=
  if upsert_fails (List.length (submitted st)) then
    (Thrown None, {| submitted := submitted st ++ [batch]; stored := stored st |})
  else
    (Returned tt, {| submitted := submitted st ++ [batch];
                     stored := stored st ++ [batch] |}).

(** Lines 329-333: the [for] loop over the upsert batches, from the batch
    that starts at [i]. *)
Equations? upsert_loop (vectors : list vector) (i : nat) (st : store)
    : outcome unit * store
    by wf (List.length vectors - i)%nat lt :=
  upsert_loop vectors i st with lt_dec i (List.length vectors) => {
    | left _
        with upsert (slice vectors (Z.of_nat i) (Z.of_nat (i + UPSERT_BATCH_SIZE))) st => {
        | (Returned _, st') => upsert_loop vectors (i + UPSERT_BATCH_SIZE) st';
        | (Thrown e, st') => (Thrown e, st') };
    | right _ => (Returned tt, st) }.
Proof. unfold UPSERT_BATCH_SIZE. lia. Qed.

(** The JSON body of a response: an error message, or the success report
    with its two counts ([chunks] and [fileInfo.totalChunks]; the texts
    derived from them are left out). *)
Inductive body : Type :=
| ErrorBody (error : jsstring)
| OkBody (chunks totalChunks : nat).

Record response : Type := { status : Z; payload : body }.

Definition error_response (st : Z) (message : string) : response :=
  {| status := st; payload := ErrorBody (js message) |}.

Definition EMPTY_FILE : response :=
  error_response 400 "The file appears to be empty or contains no readable text.".
Definition NO_CONTENT : response :=
  error_response 400 "No content could be extracted from the document".
Definition NO_VECTORS : response :=
  error_response 500 "Failed to process any chunks from the document. This may be due to API rate limits. Please try again with a smaller document or wait a few minutes.".
Definition STORE_FAILURE : response :=
  error_response 500 "Failed to store document in the knowledge base. Please try again.".
Definition INTERNAL_ERROR : response :=
  error_response 500 "Internal server error during file upload. Please try again.".

(** Whether [getPineconeIndex()] throws instead of returning the handle of
    the index (the function lives in lib/pinecone, outside the sources at
    hand). *)
Variable getPineconeIndex_throws : bool.

Variable toUpperCase : code_unit -> jsstring.

(** Lines 286-365 of [POST]: the handler from the point where the upload
    has been validated and decoded into [fileContent] (lines 209-284 only
    return a 4xx or 500 response before any chunk exists).  [None] when the
    segmenter does not return. *)
Definition POST (fileName fileContent : jsstring) (st : store)
  : option (response * store) :=
  if len (trim fileContent) =? 0 then Some (EMPTY_FILE, st)
  else
    match splitTextIntoChunks toUpperCase fileContent 1500 200 with
    | None => None
    | Some chunks =>
        if len chunks =? 0 then Some (NO_CONTENT, st)
        else
          match processChunksInBatches chunks fileName with
          | Thrown _ => Some (INTERNAL_ERROR, st)
          | Returned vectors =>
              if len vectors =? 0 then Some (NO_VECTORS, st)
              else if getPineconeIndex_throws then Some (INTERNAL_ERROR, st)
              else
                match upsert_loop vectors 0 st with
                | (Thrown _, st') => Some (STORE_FAILURE, st')
                | (Returned _, st') =>
                    Some ({| status := 200;
                             payload := OkBody (List.length vectors)
                                               (List.length chunks) |}, st')
                end
          end
    end.

(** *** Reference functions used to state the properties *)

(** What the task of the chunk of global index [g] gets back from
    [generateEmbeddingWithRetry]. *)
Definition embedded (g : nat) (chunk : jsstring) : option (embedding number) :=
  match fst (generateEmbeddingWithRetry number (service g) chunk 0 world0) with
  | Returned r => r
  | Thrown _ => None
  end.

(** The vector expected for the chunk of global index [g], if any. *)
Definition vector_of (fileName : jsstring) (totalChunks g : nat)
    (chunk : jsstring) : option vector :=
  match embedded g chunk with
  | Some embedding =>
      Some {| id := uuidv4 g;
              values := embedding;
              meta := {| text := chunk;
                         source := fileName;
                         chunk_index := g;
                         total_chunks := totalChunks;
                         timestamp := toISOString g;
                         batch_number := g / BATCH_SIZE + 1 |} |}
  | None => None
  end.

(** A list cut into consecutive pieces of [n] elements, the last one
    possibly shorter. *)
Fixpoint pieces {A} (n fuel : nat) (l : list A) : list (list A) :=
  match fuel with
  | O => []
  | S fuel' =>
      match l with
      | [] => []
      | _ :: _ => firstn n l :: pieces n fuel' (skipn n l)
      end
  end.

Definition batches_of {A} (n : nat) (l : list A) : list (list A) :=
  pieces n (List.length l) l.

(** The batches handed to [upsert] one after the other, up to the first
    rejection. *)
Fixpoint submit_all (batches : list (list vector)) (st : store)
  : outcome unit * store :=
  match batches with
  | [] => (Returned tt, st)
  | batch :: rest =>
      match upsert batch st with
      | (Returned _, st') => submit_all rest st'
      | (Thrown e, st') => (Thrown e, st')
      end
  end.

End Pipeline.

Arguments id {number} v.
Arguments values {number} v.
Arguments meta {number} v.
Arguments submitted {number} s.
Arguments stored {number} s.


(* ===================================================================== *)
(** ** The cut point as the specification words it *)
(* ===================================================================== *)

(** These definitions follow the text of the specification (section 4.1,
    steps 3b to 3d), not the source; they are compared with
    [chunkEndIndex] below. *)

(** "an uppercase letter" *)
Definition spec_is_uppercase_letter (c : code_unit) : bool :=
  ((65 <=? c) && (c <=? 90))%N.


(** "a sentence terminator that is followed by a space and then an
    uppercase letter" *)
Definition spec_sentence_end_at (cleanedText : jsstring) (i : Z) : bool :=
  match charAt cleanedText i, charAt cleanedText (i + 1), charAt cleanedText (i + 2) with
  | Some c, Some n, Some a =>
      is_terminator c && (n =? SP)%N && spec_is_uppercase_letter a
  | _, _, _ => false
  end.


(** ** Sample documents *)

(** A nine-character document. *)
Definition tiny_document : jsstring := js "hi there!".

(** 1500 letters, then a sentence end exactly at offset 1500. *)
Definition sentence_at_window_end : jsstring :=
  repeat 97%N 1500 ++ js ". Then more text follows here".

(** A sentence end at offset 1250 and neither space nor terminator from
    offset 1252 on. *)
Definition sentence_before_region : jsstring :=
  repeat 97%N 1250 ++ js ". B" ++ repeat 97%N 400.

(** ** Sample services and stores *)

(** An embedding service that answers every request with a two-number
    vector, one that rejects every request with an error that is not a rate
    limit, and the identifiers and clock readings used with them. *)
Definition service_ok : nat -> nat -> api_response Z :=
  fun _ _ => Resolved (Some [1; 2]).
Definition service_down : nat -> nat -> api_response Z :=
  fun _ _ => Rejected (Some (js "fetch failed")).
Definition sample_uuid : nat -> jsstring := fun _ => js "uuid".
Definition sample_clock : nat -> jsstring := fun _ => js "2025-01-01T00:00:00.000Z".

Definition empty_store : store Z := {| submitted := []; stored := [] |}.

(** 250 vectors, numbered in order. *)
Definition sample_vector (g : nat) : vector Z :=
  {| id := sample_uuid g;
     values := [Z.of_nat g];
     meta := {| text := js "chunk"; source := js "a.txt"; chunk_index := g;
                total_chunks := 250; timestamp := sample_clock g;
                batch_number := g / BATCH_SIZE + 1 |} |}.
Definition sample_vectors : list (vector Z) := map sample_vector (seq 0 250).

(** 25 chunks. *)
Definition sample_chunks : list jsstring := repeat (js "chunk") 25.

(* ===================================================================== *)
(** ** The whole [POST] handler (route.ts, lines 208-366) *)
(* ===================================================================== *)

(** [s.split(sep)] for a one-unit separator: the pieces between the
    separators, at least one. *)
Fixpoint split_on (sep : code_unit) (s : jsstring) : list jsstring :=
  match s with
  | [] => [[]]
  | c :: r =>
      if (c =? sep)%N then [] :: split_on sep r
      else
        match split_on sep r with
        | piece :: pieces => (c :: piece) :: pieces
        | [] => [[c]]
        end
  end.

Definition DOT : code_unit := 46%N.

(** Lines 229-230: ['.' + file.name.split('.').pop()?.toLowerCase()], for
    the host's [toLowerCase] on strings. *)
Definition fileExtension (toLowerCase : jsstring -> jsstring) (name : jsstring)
  : jsstring :=
  js "." ++ toLowerCase (last (split_on DOT name) []).

Definition allowedTypes : list jsstring := [js ".pdf"; js ".txt"; js ".md"].

(** [allowedTypes.includes(fileExtension)] *)
Definition is_allowed (extension : jsstring) : bool :=
  existsb (JS.eqb extension) allowedTypes.

(** The uploaded file as the handler sees it: its name, its size in bytes
    and what decoding its bytes gives, through [pdf-parse] for a PDF and
    through [TextDecoder] otherwise; a decoder that throws is [Thrown], a
    PDF without text is the empty string. *)
Record upload : Type := {
  name : jsstring;
  size : Z;
  decoded : outcome jsstring
}.

(** The request: whether [process.env.GOOGLE_API_KEY] is set, and what
    [request.formData()] followed by [get('document')] gives. *)
Record request : Type := {
  GOOGLE_API_KEY : bool;
  formData : outcome (option upload)
}.

Definition NO_API_KEY : response :=
  error_response 500 "Google API key is not configured".
Definition NO_DOCUMENT : response :=
  error_response 400 "No document file provided".
Definition BAD_TYPE : response :=
  error_response 400 "Please upload a PDF, TXT, or MD file.".
Definition TOO_LARGE : response :=
  error_response 400 "File size must be less than 10MB.".
Definition PDF_NO_TEXT : response :=
  error_response 400 "Could not extract text from PDF. Please ensure the PDF contains readable text.".
Definition NO_READABLE_CONTENT : response :=
  error_response 400 "No readable content found in the file.".
Definition PARSE_FAILURE : response :=
  error_response 400 "Failed to parse file content. Please ensure the file is valid and readable.".

Section Handler.

Variable number : Type.
Variable service : nat -> nat -> api_response number.
Variables uuidv4 toISOString : nat -> jsstring.
Variable upsert_fails : nat -> bool.
Variable getPineconeIndex_throws : bool.
Variable toUpperCase : code_unit -> jsstring.
Variable toLowerCase : jsstring -> jsstring.

(** Lines 208-366: the validation of the request and the decoding of the
    file (lines 209-284), then the ingestion proper, [POST] above. *)
Definition POST_handler (req : request) (st : store number)
  : option (response * store number) :=
  if negb (GOOGLE_API_KEY req) then Some (NO_API_KEY, st)
  else
    match formData req with
    | Thrown _ => Some (INTERNAL_ERROR, st)
    | Returned None => Some (NO_DOCUMENT, st)
    | Returned (Some file) =>
        let fileExtension := fileExtension toLowerCase (name file) in
        if negb (is_allowed fileExtension) then Some (BAD_TYPE, st)
        else if size file >? 10 * 1024 * 1024 then Some (TOO_LARGE, st)
        else
          match decoded file with
          | Thrown _ => Some (PARSE_FAILURE, st)
          | Returned fileContent =>
              if JS.eqb fileExtension (js ".pdf")
                 && (len (trim fileContent) =? 0)
              then Some (PDF_NO_TEXT, st)
              else if len (trim fileContent) =? 0
              then Some (NO_READABLE_CONTENT, st)
              else
                POST number service uuidv4 toISOString upsert_fails
                     getPineconeIndex_throws toUpperCase
                     (name file) fileContent st
          end
    end.

End Handler.

(** [s.toLowerCase()] on Basic Latin letters, other units left as they
    are; used to run the handler on ASCII file names. *)
Definition asciiToLowerCase (s : jsstring) : jsstring :=
  map (fun c => if ((65 <=? c) && (c <=? 90))%N then (c + 32)%N else c) s.

(** A request with the key set and a nine-character text file, the vector
    the pipeline makes of it with [service_ok], and the store that holds it. *)
Definition sample_request : request :=
  {| GOOGLE_API_KEY := true;
     formData := Returned (Some {| name := js "notes.txt"; size := 9;
                                   decoded := Returned tiny_document |}) |}.

Definition sample_stored_vector : vector Z :=
  {| id := sample_uuid 0;
     values := [1; 2];
     meta := {| text := tiny_document; source := js "notes.txt";
                chunk_index := 0; total_chunks := 1;
                timestamp := sample_clock 0; batch_number := 1 |} |}.

Definition sample_store_after : store Z :=
  {| submitted := [[sample_stored_vector]]; stored := [[sample_stored_vector]] |}.

(* ===================================================================== *)
(** ** Measures and shapes used to state the properties *)
(* ===================================================================== *)

(** The milliseconds a trace spends waiting, and the requests in it. *)
Fixpoint total_wait (l : list event) : Z :=
  match l with
  | [] => 0
  | Wait ms :: r => ms + total_wait r
  | Request _ :: r => total_wait r
  end.

Fixpoint request_count (l : list event) : nat :=
  match l with
  | [] => 0
  | Request _ :: r => S (request_count r)
  | Wait _ :: r => request_count r
  end.

(** The trace of a call that is retried [retries] times from retry count
    [retryCount]: a request, then a wait and a request per retry. *)
Fixpoint retry_trace (chunk : jsstring) (retryCount retries : nat) : list event :=
  match retries with
  | O => [Request chunk]
  | S retries' =>
      Request chunk :: Wait (BASE_RETRY_DELAY * 2 ^ Z.of_nat retryCount)
        :: retry_trace chunk (S retryCount) retries'
  end.

(** [c] occurs in [s] as a run of consecutive characters. *)
Definition substring_of (c s : jsstring) : Prop :=
  exists before after, s = before ++ c ++ after.

(** The only white space of [s] is the space character. *)
Definition only_spaces (s : jsstring) : Prop :=
  forall c, In c s -> is_ws c = true -> c = SP.

(** No two neighbours in [s] are both white space. *)
Definition no_adjacent_ws (s : jsstring) : Prop :=
  forall before x y after,
    s = before ++ x :: y :: after -> is_ws x = false \/ is_ws y = false.

(** [s] does not end with white space. *)
Definition ends_clean (s : jsstring) : Prop := starts_clean (rev s).

(** Every white-space character of [s] is followed by a character that is
    not, or ends [s]. *)
Fixpoint spaced (s : jsstring) : Prop :=
  match s with
  | [] => True
  | c :: r => (is_ws c = true -> starts_clean r) /\ spaced r
  end.

(* ===================================================================== *)
(** ** The pipeline for any thrown value *)
(* ===================================================================== *)

(** The [catch] block of [generateEmbeddingWithRetry] first reads a message
    from the thrown value (line 125) and tests it with [includes] (line
    127).  For most values that reading gives a string or nothing, and
    [Rejected] above carries it.  For some values the reading itself throws:
    an [Error] whose [message] is not a string has no [includes], and
    [String(error)] throws on a value that cannot be converted.  The [catch]
    block then raises, and the call rejects.  [any_response] adds that
    behaviour: a request resolves, is rejected with a value that the [catch]
    block reads as before, or is rejected with a value on which the [catch]
    block raises [raised]. *)
Inductive any_response (number : Type) : Type :=
| Answered (response : api_response number)
| RejectedUnreadable (raised : option jsstring).
Arguments Answered {number} response.
Arguments RejectedUnreadable {number} raised.

(** The state of a task after one more request for [chunk]. *)
Definition sent (w : world) (chunk : jsstring) : world :=
  {| requests := S (requests w); log := log w ++ [Request chunk] |}.

Section AnyThrow.

Variable number : Type.

(** Lines 112-143 again, with the third behaviour of a request: the
    clauses for [Answered] are those of [generateEmbeddingWithRetry], the
    last one is the [catch] block raising. *)
Equations? generateEmbeddingWithRetry_any (api : nat -> any_response number)
    (chunk : jsstring) (retryCount : nat) (w : world)
    : outcome (option (embedding number)) * world
    by wf (MAX_RETRIES - retryCount)%nat lt :=
  generateEmbeddingWithRetry_any api chunk retryCount w with api (requests w) => {
    | Answered (Resolved values) =>
        (Returned (non_empty_or_null number values), sent w chunk);
    | Answered (Rejected errorMessage) with is_rate_limit errorMessage => {
      | true with lt_dec retryCount MAX_RETRIES => {
        | left _ =>
            let retryDelay := BASE_RETRY_DELAY * 2 ^ Z.of_nat retryCount in
            generateEmbeddingWithRetry_any api chunk (S retryCount)
              (delay retryDelay (sent w chunk));
        | right _ => (Returned None, sent w chunk) };
      | false => (Returned None, sent w chunk) };
    | RejectedUnreadable raised => (Thrown raised, sent w chunk) }.
Proof.
  clear retryDelay. unfold MAX_RETRIES in *.
  do 3 (destruct retryCount as [|retryCount]; [lia|]). lia.
Qed.

(** A service all of whose rejections can be read. *)
Definition readable {A} (service : A -> api_response number) : A -> any_response number :=
  fun a => Answered (service a).

Variable service : nat -> nat -> any_response number.
Variable uuidv4 : nat -> jsstring.
Variable toISOString : nat -> jsstring.

(** Lines 163-188, as [embed_task]. *)
Definition embed_task_any (fileName : jsstring) (totalChunks i batchNumber : nat)
    (chunk : jsstring) (batchIndex : nat) : outcome (option (vector number)) :=
  let globalIndex := (i + batchIndex)%nat in
  let w := if (0 <? batchIndex)%nat then delay 200 world0 else world0 in
  match fst (generateEmbeddingWithRetry_any (service globalIndex) chunk 0 w) with
  | Returned (Some embedding) =>
      Returned (Some {| id := uuidv4 globalIndex;
                        values := embedding;
                        meta := {| text := chunk;
                                   source := fileName;
                                   chunk_index := globalIndex;
                                   total_chunks := totalChunks;
                                   timestamp := toISOString globalIndex;
                                   batch_number := batchNumber |} |})
  | Returned None => Returned None
  | Thrown e => Thrown e
  end.

(** Lines 155-203, as [batch_loop]. *)
Equations? batch_loop_any (chunks : list jsstring) (fileName : jsstring)
    (i : nat) (vectors : list (vector number)) : outcome (list (vector number))
    by wf (List.length chunks - i)%nat lt :=
  batch_loop_any chunks fileName i vectors with lt_dec i (List.length chunks) => {
    | left _
        with promise_all
               (map_indexed
                  (embed_task_any fileName (List.length chunks) i (i / BATCH_SIZE + 1))
                  0%nat
                  (slice chunks (Z.of_nat i) (Z.of_nat (i + BATCH_SIZE)))) => {
        | Returned batchResults =>
            batch_loop_any chunks fileName (i + BATCH_SIZE)
              (vectors ++ filter_non_null batchResults);
        | Thrown e => Thrown e };
    | right _ => Returned vectors }.
Proof. unfold BATCH_SIZE. lia. Qed.

Definition processChunksInBatches_any (chunks : list jsstring) (fileName : jsstring)
  : outcome (list (vector number)) :=
  batch_loop_any chunks fileName 0 [].

Variable upsert_fails : nat -> bool.
Variable getPineconeIndex_throws : bool.
Variable toUpperCase : code_unit -> jsstring.

(** Lines 286-365, as [POST]: an exception that leaves the scheduler is
    caught at line 359. *)
Definition POST_any (fileName fileContent : jsstring) (st : store number)
  : option (response * store number) :=
  if len (trim fileContent) =? 0 then Some (EMPTY_FILE, st)
  else
    match splitTextIntoChunks toUpperCase fileContent 1500 200 with
    | None => None
    | Some chunks =>
        if len chunks =? 0 then Some (NO_CONTENT, st)
        else
          match processChunksInBatches_any chunks fileName with
          | Thrown _ => Some (INTERNAL_ERROR, st)
          | Returned vectors =>
              if len vectors =? 0 then Some (NO_VECTORS, st)
              else if getPineconeIndex_throws then Some (INTERNAL_ERROR, st)
              else
                match upsert_loop number upsert_fails vectors 0 st with
                | (Thrown _, st') => Some (STORE_FAILURE, st')
                | (Returned _, st') =>
                    Some ({| status := 200;
                             payload := OkBody (List.length vectors)
                                               (List.length chunks) |}, st')
                end
          end
    end.

End AnyThrow.

Arguments readable {number A} service.

(** A service that rejects the first request with an [Error] whose message
    is the number 429: reading it raises a [TypeError]. *)
Definition service_unreadable : nat -> any_response Z :=
  fun _ => RejectedUnreadable (Some (js "errorMessage?.includes is not a function")).

(* ===================================================================== *)
(** ** Shapes used to state where the cut falls *)
(* ===================================================================== *)




(* ===================================================================== *)
(** * Properties *)
(* ===================================================================== *)

(** ** Strings *)

Lemma len_nonneg {A} (s : list A) : 0 <= len s.
Proof. unfold len. lia. Qed.

Lemma len_app {A} (a b : list A) : len (a ++ b) = len a + len b.
Proof. unfold len. rewrite length_app. lia. Qed.

Lemma trimStart_length s : (List.length (trimStart s) <= List.length s)%nat.
Proof.
  induction s as [|c r IH]; simpl; [lia|].
  destruct (is_ws c); simpl; lia.
Qed.

Lemma trimEnd_length s : (List.length (trimEnd s) <= List.length s)%nat.
Proof.
  unfold trimEnd. rewrite length_rev.
  etransitivity; [apply trimStart_length|]. rewrite length_rev. lia.
Qed.

Lemma trim_length s : len (trim s) <= len s.
Proof.
  unfold trim, len. apply inj_le.
  etransitivity; [apply trimEnd_length | apply trimStart_length].
Qed.

Lemma trimStart_starts_clean s : starts_clean (trimStart s).
Proof.
  induction s as [|c r IH]; simpl; [exact I|].
  destruct (is_ws c) eqn:E; [exact IH | simpl; exact E].
Qed.

Lemma trimStart_fixed s : starts_clean s -> trimStart s = s.
Proof.
  destruct s as [|c r]; simpl; [reflexivity|].
  intros ->. reflexivity.
Qed.

Lemma trimStart_app_clean l c r :
  is_ws c = false -> trimStart (l ++ c :: r) = trimStart l ++ c :: r.
Proof.
  intros Hc. induction l as [|d l IH]; simpl.
  - rewrite Hc. reflexivity.
  - destruct (is_ws d); [exact IH | reflexivity].
Qed.

Lemma trimEnd_starts_clean s : starts_clean s -> starts_clean (trimEnd s).
Proof.
  destruct s as [|c r]; [intros _; exact I|].
  simpl. intros Hc. unfold trimEnd. simpl.
  rewrite (trimStart_app_clean (rev r) c [] Hc).
  rewrite rev_app_distr. simpl. exact Hc.
Qed.

Lemma trimEnd_idempotent s : trimEnd (trimEnd s) = trimEnd s.
Proof.
  unfold trimEnd. rewrite rev_involutive.
  rewrite (trimStart_fixed (trimStart (rev s))); [reflexivity|].
  apply trimStart_starts_clean.
Qed.

Lemma trim_idempotent s : trim (trim s) = trim s.
Proof.
  unfold trim at 1.
  rewrite (trimStart_fixed (trim s)).
  - unfold trim. apply trimEnd_idempotent.
  - unfold trim. apply trimEnd_starts_clean, trimStart_starts_clean.
Qed.

Lemma slice_length {A} (s : list A) (a b : Z) :
  0 <= a -> 0 <= b -> len (slice s a b) <= Z.max 0 (b - a).
Proof.
  intros Ha Hb. unfold slice, clamp_index.
  pose proof (len_nonneg s) as Hs.
  destruct (Z.ltb_spec a 0); [lia|]. destruct (Z.ltb_spec b 0); [lia|].
  unfold len at 1. rewrite length_firstn.
  lia.
Qed.

Lemma slice_from_length {A} (s : list A) (a : Z) :
  0 <= a -> len (slice_from s a) <= Z.max 0 (len s - a).
Proof.
  intros Ha. unfold slice_from. apply slice_length; [lia | apply len_nonneg].
Qed.

(** ** Backward search *)

Lemma find_down_some p n : forall i j,
  find_down p i n = Some j ->
  i - Z.of_nat n < j <= i /\ p j = true /\ forall k, j < k <= i -> p k = false.
Proof.
  induction n as [|n IH]; simpl; intros i j H; [discriminate|].
  destruct (p i) eqn:E.
  - inversion H; subst. repeat split; try lia; auto.
  - apply IH in H. destruct H as (Hr & Hp & Hk).
    repeat split; try lia; auto.
    intros k Hkr. destruct (Z.eq_dec k i) as [->|]; [exact E|]. apply Hk; lia.
Qed.

Lemma find_down_none p n : forall i,
  find_down p i n = None -> forall k, i - Z.of_nat n < k <= i -> p k = false.
Proof.
  induction n as [|n IH]; simpl; intros i H k Hk; [lia|].
  destruct (p i) eqn:E; [discriminate|].
  destruct (Z.eq_dec k i) as [->|]; [exact E|]. apply (IH _ H); lia.
Qed.

Lemma search_back_some p hi lo j :
  search_back p hi lo = Some j ->
  lo <= j <= hi /\ p j = true /\ forall k, j < k <= hi -> p k = false.
Proof.
  unfold search_back. intros H.
  destruct (Z.to_nat (hi - lo + 1)) eqn:E; [discriminate|].
  rewrite <- E in H. apply find_down_some in H.
  destruct H as (Hr & Hp & Hk). repeat split; auto; lia.
Qed.

Lemma search_back_none p hi lo :
  search_back p hi lo = None -> forall k, lo <= k <= hi -> p k = false.
Proof.
  unfold search_back. intros H k Hk. apply (find_down_none _ _ _ H). lia.
Qed.

Lemma search_back_found p hi lo k :
  lo <= k <= hi -> p k = true -> exists j, search_back p hi lo = Some j.
Proof.
  intros Hk Hp. destruct (search_back p hi lo) eqn:E; [eauto|].
  rewrite (search_back_none _ _ _ E k Hk) in Hp. discriminate.
Qed.

(** ** Segmenter *)

Lemma searchStart_bounds startIndex maxChars :
  0 < maxChars ->
  startIndex < searchStart startIndex maxChars <= startIndex + maxChars.
Proof.
  intros H. unfold searchStart.
  assert (1 <= (7 * maxChars + 9) / 10) by (apply Z.div_le_lower_bound; lia).
  assert ((7 * maxChars + 9) / 10 <= maxChars)
    by (apply Z.lt_succ_r, Z.div_lt_upper_bound; lia).
  lia.
Qed.

Section SegmenterFacts.

Variable toUpperCase : code_unit -> jsstring.

Lemma chunkEndIndex_bounds cleanedText maxChars startIndex :
  0 < maxChars ->
  searchStart startIndex maxChars
    <= chunkEndIndex toUpperCase cleanedText maxChars startIndex
    <= startIndex + maxChars + 1.
Proof.
  intros H. pose proof (searchStart_bounds startIndex maxChars H) as Hs.
  unfold chunkEndIndex.
  destruct (search_back (sentence_end_at _ _) _ _) as [i|] eqn:E1.
  - apply search_back_some in E1. destruct E1 as (Hr & _).
    destruct (Z.eqb_spec (i + 1) (startIndex + maxChars)) as [Heq|Hne]; [|lia].
    destruct (search_back (space_at _) _ _) as [j|] eqn:E2; [|lia].
    apply search_back_some in E2. lia.
  - rewrite Z.eqb_refl.
    destruct (search_back (space_at _) _ _) as [j|] eqn:E2; [|lia].
    apply search_back_some in E2. lia.
Qed.

Lemma loop_body_continue cleanedText maxChars overlap startIndex chunks s' c' :
  loop_body toUpperCase cleanedText maxChars overlap startIndex chunks
    = Continue s' c' ->
  let ce := chunkEndIndex toUpperCase cleanedText maxChars startIndex in
  startIndex + maxChars < len cleanedText
  /\ (s' = ce \/ s' = Z.max (ce - overlap) (startIndex + 1))
  /\ c' = push_if_substantial chunks (trim (slice cleanedText startIndex ce)).
Proof.
  unfold loop_body.
  destruct (Z.geb_spec (startIndex + maxChars) (len cleanedText)); [discriminate|].
  intros Heq. inversion Heq; subst. clear Heq. cbv zeta.
  repeat split; [lia|].
  destruct (_ >=? _); auto.
Qed.

Lemma loop_body_advances cleanedText maxChars overlap startIndex chunks s' c' :
  0 < maxChars ->
  loop_body toUpperCase cleanedText maxChars overlap startIndex chunks
    = Continue s' c' ->
  startIndex < s'.
Proof.
  intros Hm H. apply loop_body_continue in H. destruct H as (_ & Hs & _).
  pose proof (chunkEndIndex_bounds cleanedText maxChars startIndex Hm).
  pose proof (searchStart_bounds startIndex maxChars Hm).
  lia.
Qed.

Lemma split_loop_terminates cleanedText maxChars overlap :
  0 < maxChars ->
  forall fuel startIndex chunks,
    (Z.to_nat (len cleanedText - startIndex) < fuel)%nat ->
    exists result,
      split_loop toUpperCase fuel cleanedText maxChars overlap startIndex chunks
        = Some result.
Proof.
  intros Hm. induction fuel as [|fuel IH]; intros startIndex chunks Hf; [lia|].
  simpl. destruct (Z.ltb_spec startIndex (len cleanedText)); [|eauto].
  destruct (loop_body _ _ _ _ _ _) as [r|s' c'] eqn:E; [eauto|].
  apply loop_body_advances in E; [|exact Hm].
  apply IH. lia.
Qed.

(** Once the loop has stopped, more fuel changes nothing. *)
Lemma split_loop_more_fuel cleanedText maxChars overlap :
  forall fuel fuel' startIndex chunks result,
    split_loop toUpperCase fuel cleanedText maxChars overlap startIndex chunks
      = Some result ->
    (fuel <= fuel')%nat ->
    split_loop toUpperCase fuel' cleanedText maxChars overlap startIndex chunks
      = Some result.
Proof.
  induction fuel as [|fuel IH]; intros fuel' startIndex chunks result H Hle;
    [discriminate|].
  destruct fuel' as [|fuel']; [lia|].
  simpl in *. destruct (startIndex <? len cleanedText); [|exact H].
  destruct (loop_body _ _ _ _ _ _) as [r|s' c']; [exact H|].
  apply IH; [exact H | lia].
Qed.

End SegmenterFacts.

Section SegmenterInvariant.

Variable toUpperCase : code_unit -> jsstring.
Variable P : jsstring -> Prop.
Variables (cleanedText : jsstring) (maxChars overlap : Z).

Hypothesis maxChars_pos : 0 < maxChars.

Hypothesis final_chunk_ok : forall startIndex,
  0 <= startIndex < len cleanedText ->
  len cleanedText <= startIndex + maxChars ->
  50 < len (trim (slice_from cleanedText startIndex)) ->
  P (trim (slice_from cleanedText startIndex)).

Hypothesis inner_chunk_ok : forall startIndex,
  0 <= startIndex ->
  startIndex + maxChars < len cleanedText ->
  let ce := chunkEndIndex toUpperCase cleanedText maxChars startIndex in
  50 < len (trim (slice cleanedText startIndex ce)) ->
  P (trim (slice cleanedText startIndex ce)).

Lemma push_if_substantial_Forall chunks chunk :
  Forall P chunks -> (50 < len chunk -> P chunk) ->
  Forall P (push_if_substantial chunks chunk).
Proof.
  intros Hc Hp. unfold push_if_substantial.
  destruct (Z.gtb_spec (len chunk) 50); [|exact Hc].
  apply Forall_app. split; [exact Hc|]. constructor; [apply Hp; lia | constructor].
Qed.

(** Every chunk the loop collects satisfies [P], once the two kinds of chunk
    it can push do. *)
Lemma split_loop_Forall : forall fuel startIndex chunks result,
  0 <= startIndex ->
  Forall P chunks ->
  split_loop toUpperCase fuel cleanedText maxChars overlap startIndex chunks
    = Some result ->
  Forall P result.
Proof.
  induction fuel as [|fuel IH]; intros startIndex chunks result Hs Hc; simpl;
    [discriminate|].
  destruct (Z.ltb_spec startIndex (len cleanedText)) as [Hlt|Hge].
  - destruct (loop_body _ _ _ _ _ _) as [r|s' c'] eqn:E.
    + intros Hr. inversion Hr; subst. clear Hr.
      unfold loop_body in E.
      destruct (Z.geb_spec (startIndex + maxChars) (len cleanedText)); [|discriminate].
      inversion E; subst. apply push_if_substantial_Forall; [exact Hc|].
      apply final_chunk_ok; lia.
    + pose proof (loop_body_advances _ _ _ _ _ _ _ _ maxChars_pos E) as Hadv.
      apply loop_body_continue in E. destruct E as (Hin & _ & ->).
      apply IH; [lia|].
      apply push_if_substantial_Forall; [exact Hc|].
      apply inner_chunk_ok; lia.
  - intros Hr. inversion Hr; subst. exact Hc.
Qed.

End SegmenterInvariant.

Lemma Forall_filter {A} (P : A -> Prop) f l : Forall P l -> Forall P (filter f l).
Proof.
  rewrite !Forall_forall. intros H x Hx. apply filter_In in Hx. apply H, Hx.
Qed.

(** On the multi-chunk path the segmenter returns, and what it returns
    satisfies any property that the chunks pushed by the loop have. *)
Lemma splitTextIntoChunks_long toUpperCase (P : jsstring -> Prop) text maxChars overlap :
  0 < maxChars ->
  maxChars < len (clean text) ->
  (forall startIndex,
      0 <= startIndex < len (clean text) ->
      len (clean text) <= startIndex + maxChars ->
      50 < len (trim (slice_from (clean text) startIndex)) ->
      P (trim (slice_from (clean text) startIndex))) ->
  (forall startIndex,
      0 <= startIndex ->
      startIndex + maxChars < len (clean text) ->
      let ce := chunkEndIndex toUpperCase (clean text) maxChars startIndex in
      50 < len (trim (slice (clean text) startIndex ce)) ->
      P (trim (slice (clean text) startIndex ce))) ->
  exists chunks,
    splitTextIntoChunks toUpperCase text maxChars overlap = Some chunks
    /\ Forall P chunks.
Proof.
  intros Hm Hlong Hfinal Hinner.
  unfold splitTextIntoChunks, splitTextIntoChunks_fuel.
  destruct (Z.leb_spec (len (clean text)) maxChars); [lia|].
  destruct (split_loop_terminates toUpperCase (clean text) maxChars overlap Hm
              (S (List.length (clean text))) 0 []) as [r Hr].
  { unfold len. lia. }
  rewrite Hr. simpl. eexists. split; [reflexivity|].
  apply Forall_filter.
  eapply (split_loop_Forall toUpperCase P (clean text) maxChars overlap Hm Hfinal Hinner);
    [| constructor | exact Hr]. lia.
Qed.

(** Upper bound on the length of the chunks: [maxChars + 1], reached when a
    sentence ends exactly at the window's end offset. *)
Lemma chunk_length_bound toUpperCase text maxChars overlap chunks :
  0 < maxChars ->
  splitTextIntoChunks toUpperCase text maxChars overlap = Some chunks ->
  Forall (fun chunk => len chunk <= maxChars + 1) chunks.
Proof.
  intros Hm Hs.
  destruct (Z.leb_spec (len (clean text)) maxChars) as [Hshort|Hlong].
  - unfold splitTextIntoChunks, splitTextIntoChunks_fuel in Hs.
    destruct (Z.leb_spec (len (clean text)) maxChars); [|lia].
    inversion Hs; subst. constructor; [lia | constructor].
  - destruct (splitTextIntoChunks_long toUpperCase
                (fun chunk => len chunk <= maxChars + 1) text maxChars overlap Hm Hlong)
      as [r [Hr HP]].
    + intros startIndex Hs0 Hend _.
      pose proof (trim_length (slice_from (clean text) startIndex)).
      pose proof (slice_from_length (clean text) startIndex). lia.
    + intros startIndex Hs0 Hend ce _.
      pose proof (chunkEndIndex_bounds toUpperCase (clean text) maxChars startIndex Hm).
      pose proof (searchStart_bounds startIndex maxChars Hm).
      pose proof (trim_length (slice (clean text) startIndex ce)).
      pose proof (slice_length (clean text) startIndex ce). subst ce. lia.
    + rewrite Hr in Hs. inversion Hs; subst. exact HP.
Qed.

(** ** Claims on the segmenter *)

(** C2, as stated, fails: with the default parameters the nine-character
    document comes back as a chunk whose trimmed length is 9. *)
Lemma sub_threshold_chunk_returned :
  0 <= 200 < 1500 /\
  exists chunks chunk,
    splitTextIntoChunks asciiToUpperCase tiny_document 1500 200 = Some chunks
    /\ In chunk chunks
    /\ ~ 50 < len (trim chunk).
Proof.
  split; [lia|].
  exists [tiny_document], tiny_document.
  split; [vm_compute; reflexivity|].
  split; [left; reflexivity|].
  vm_compute. intros H; discriminate H.
Qed.

(** C2, amended: for valid parameters the segmenter returns; when the
    normalized text is longer than [maxChars] every returned chunk has
    trimmed length above 50, and otherwise the only chunk is the normalized
    text itself, whatever its length. *)
Theorem returned_chunks_substantial_or_whole toUpperCase text maxChars overlap :
  0 <= overlap < maxChars ->
  exists chunks,
    splitTextIntoChunks toUpperCase text maxChars overlap = Some chunks
    /\ (maxChars < len (clean text) ->
        Forall (fun chunk => 50 < len (trim chunk)) chunks)
    /\ (len (clean text) <= maxChars -> chunks = [clean text]).
Proof.
  intros Hv.
  destruct (Z.leb_spec (len (clean text)) maxChars) as [Hshort|Hlong].
  - exists [clean text].
    unfold splitTextIntoChunks, splitTextIntoChunks_fuel.
    destruct (Z.leb_spec (len (clean text)) maxChars); [|lia].
    split; [reflexivity|]. split; [lia | reflexivity].
  - destruct (splitTextIntoChunks_long toUpperCase
                (fun chunk => 50 < len (trim chunk)) text maxChars overlap)
      as [chunks [Hr HP]]; try lia.
    + intros startIndex _ _ H. rewrite trim_idempotent. exact H.
    + intros startIndex _ _ ce H. rewrite trim_idempotent. exact H.
    + exists chunks. split; [exact Hr|]. split; [intros _; exact HP | lia].
Qed.

Lemma returned_chunks_substantial_or_whole_witness :
  exists chunks,
    splitTextIntoChunks asciiToUpperCase sentence_at_window_end 1500 200 = Some chunks
    /\ (1500 < len (clean sentence_at_window_end) ->
        Forall (fun chunk => 50 < len (trim chunk)) chunks)
    /\ (len (clean sentence_at_window_end) <= 1500 ->
        chunks = [clean sentence_at_window_end]).
Proof.
  apply (returned_chunks_substantial_or_whole asciiToUpperCase
           sentence_at_window_end 1500 200).
  lia.
Defined.

(** C7: for a positive [maxChars] every iteration of the loop that goes on
    leaves the cursor strictly beyond where it was, and the segmenter
    returns. *)
Theorem cursor_strictly_advances toUpperCase text maxChars overlap :
  0 < maxChars ->
  (forall cleanedText startIndex chunks startIndex' chunks',
      loop_body toUpperCase cleanedText maxChars overlap startIndex chunks
        = Continue startIndex' chunks' ->
      startIndex < startIndex')
  /\ exists chunks,
       splitTextIntoChunks toUpperCase text maxChars overlap = Some chunks.
Proof.
  intros Hm. split.
  - intros cleanedText startIndex chunks s' c' H.
    eapply loop_body_advances; eauto.
  - unfold splitTextIntoChunks, splitTextIntoChunks_fuel.
    destruct (_ <=? _); [eauto|].
    destruct (split_loop_terminates toUpperCase (clean text) maxChars overlap Hm
                (S (List.length (clean text))) 0 []) as [r Hr].
    { unfold len. lia. }
    rewrite Hr. simpl. eauto.
Qed.

(** A text without any space or sentence terminator. *)
Lemma cursor_strictly_advances_witness :
  (forall cleanedText startIndex chunks startIndex' chunks',
      loop_body asciiToUpperCase cleanedText 60 10 startIndex chunks
        = Continue startIndex' chunks' ->
      startIndex < startIndex')
  /\ exists chunks,
       splitTextIntoChunks asciiToUpperCase (repeat 97%N 200) 60 10 = Some chunks.
Proof.
  apply (cursor_strictly_advances asciiToUpperCase (repeat 97%N 200) 60 10).
  lia.
Defined.

(** C10 at [sentence_at_window_end]: with the default parameters the first
    chunk has 1501 characters, one more than [maxChars]. *)
Theorem chunk_longer_than_maxChars :
  option_map (map len)
    (splitTextIntoChunks asciiToUpperCase sentence_at_window_end 1500 200)
  = Some [1501; 228].
Proof. vm_compute. reflexivity. Qed.














(** ** Embedder *)

Section EmbedderFacts.

Variable number : Type.

(** The function as one equation, in the shape of the source. *)
Lemma generateEmbeddingWithRetry_body api chunk retryCount w :
  generateEmbeddingWithRetry number api chunk retryCount w =
  match embedContent number api chunk w with
  | (Returned values, w1) => (Returned (non_empty_or_null number values), w1)
  | (Thrown errorMessage, w1) =>
      if is_rate_limit errorMessage then
        if (retryCount <? MAX_RETRIES)%nat then
          generateEmbeddingWithRetry number api chunk (S retryCount)
              (delay (BASE_RETRY_DELAY * 2 ^ Z.of_nat retryCount) w1)
        else (Returned None, w1)
      else (Returned None, w1)
  end.
Proof.
  simp generateEmbeddingWithRetry.
  destruct (embedContent number api chunk w) as [[values|errorMessage] w1]; simpl;
    [reflexivity|].
  destruct (is_rate_limit errorMessage); simpl; [|reflexivity].
  destruct (lt_dec retryCount MAX_RETRIES), (Nat.ltb_spec retryCount MAX_RETRIES);
    simpl; try lia; reflexivity.
Qed.

Lemma non_empty_or_null_some values e :
  non_empty_or_null number values = Some e -> values = Some e /\ e <> [].
Proof.
  unfold non_empty_or_null. destruct values as [v|]; [|discriminate].
  destruct (Z.gtb_spec (len v) 0) as [Hpos|]; [|discriminate].
  intros Heq; inversion Heq; subst. split; [reflexivity|].
  intros ->. unfold len in Hpos. simpl in Hpos. lia.
Qed.

(** Whatever the service answers, the call returns: it never throws, and a
    vector it returns is one the service resolved with and is not empty. *)
Lemma generateEmbeddingWithRetry_returns api chunk :
  forall k retryCount w,
    (MAX_RETRIES - retryCount <= k)%nat ->
    exists r w',
      generateEmbeddingWithRetry number api chunk retryCount w = (Returned r, w')
      /\ (forall e, r = Some e -> e <> []).
Proof.
  induction k as [|k IH]; intros retryCount w Hk;
    rewrite generateEmbeddingWithRetry_body;
    unfold embedContent;
    destruct (api (requests w)) as [values|errorMessage].
  - eexists _, _. split; [reflexivity|].
    intros e He. apply non_empty_or_null_some in He. tauto.
  - destruct (is_rate_limit errorMessage);
      [destruct (Nat.ltb_spec retryCount MAX_RETRIES); [lia|] |];
      (eexists _, _; split; [reflexivity | intros; discriminate]).
  - eexists _, _. split; [reflexivity|].
    intros e He. apply non_empty_or_null_some in He. tauto.
  - destruct (is_rate_limit errorMessage);
      [destruct (Nat.ltb_spec retryCount MAX_RETRIES) |].
    + apply IH. lia.
    + eexists _, _; split; [reflexivity | intros; discriminate].
    + eexists _, _; split; [reflexivity | intros; discriminate].
Qed.

End EmbedderFacts.

(** C3: when every request is rejected with a rate-limit error the call
    sends the first request and three more, waits 1000, 2000 and 4000 ms
    before them, and returns null; when the first request is rejected with
    any other error it returns null after that single request, without
    waiting. *)
Theorem retry_schedule number api chunk :
  ((forall n, exists m, api n = Rejected m /\ is_rate_limit m = true) ->
   generateEmbeddingWithRetry number api chunk 0 world0
   = (Returned None,
      {| requests := 4;
         log := [Request chunk; Wait (BASE_RETRY_DELAY * 2 ^ 0);
                 Request chunk; Wait (BASE_RETRY_DELAY * 2 ^ 1);
                 Request chunk; Wait (BASE_RETRY_DELAY * 2 ^ 2);
                 Request chunk] |}))
  /\ (forall m, api 0%nat = Rejected m -> is_rate_limit m = false ->
      generateEmbeddingWithRetry number api chunk 0 world0
      = (Returned None, {| requests := 1; log := [Request chunk] |}))
  /\ [BASE_RETRY_DELAY * 2 ^ 0; BASE_RETRY_DELAY * 2 ^ 1; BASE_RETRY_DELAY * 2 ^ 2]
     = [1000; 2000; 4000].
Proof.
  split; [|split; [|reflexivity]].
  - intros H.
    destruct (H 0%nat) as (m0 & E0 & R0), (H 1%nat) as (m1 & E1 & R1),
             (H 2%nat) as (m2 & E2 & R2), (H 3%nat) as (m3 & E3 & R3).
    rewrite generateEmbeddingWithRetry_body. unfold embedContent. simpl.
    rewrite E0, R0. simpl.
    rewrite generateEmbeddingWithRetry_body. unfold embedContent. simpl.
    rewrite E1, R1. simpl.
    rewrite generateEmbeddingWithRetry_body. unfold embedContent. simpl.
    rewrite E2, R2. simpl.
    rewrite generateEmbeddingWithRetry_body. unfold embedContent. simpl.
    rewrite E3, R3. simpl.
    reflexivity.
  - intros m E R.
    rewrite generateEmbeddingWithRetry_body. unfold embedContent. simpl.
    rewrite E, R. reflexivity.
Qed.

Lemma retry_schedule_witness :
  generateEmbeddingWithRetry Z
    (fun _ => Rejected (Some (js "got status: 429 Too Many Requests")))
    (js "chunk") 0 world0
  = (Returned None,
     {| requests := 4;
        log := [Request (js "chunk"); Wait 1000;
                Request (js "chunk"); Wait 2000;
                Request (js "chunk"); Wait 4000;
                Request (js "chunk")] |})
  /\ generateEmbeddingWithRetry Z
       (fun _ => Rejected (Some (js "fetch failed")))
       (js "chunk") 0 world0
     = (Returned None, {| requests := 1; log := [Request (js "chunk")] |}).
Proof.
  split.
  - apply (proj1 (retry_schedule Z
             (fun _ => Rejected (Some (js "got status: 429 Too Many Requests")))
             (js "chunk"))).
    intros n. eexists. split; reflexivity.
  - apply (proj1 (proj2 (retry_schedule Z
             (fun _ => Rejected (Some (js "fetch failed"))) (js "chunk")))
             (Some (js "fetch failed"))); reflexivity.
Defined.

(** ** Lists cut into batches *)

Lemma slice_nat {A} (l : list A) (i n : nat) :
  slice l (Z.of_nat i) (Z.of_nat (i + n)) = firstn n (skipn i l).
Proof.
  unfold slice, clamp_index, len.
  destruct (Z.ltb_spec (Z.of_nat i) 0); [lia|].
  destruct (Z.ltb_spec (Z.of_nat (i + n)) 0); [lia|].
  destruct (Nat.le_gt_cases i (List.length l)) as [Hi|Hi].
  - rewrite (Z.min_l (Z.of_nat i)) by lia. rewrite Nat2Z.id.
    destruct (Nat.le_gt_cases (i + n) (List.length l)) as [Hn|Hn].
    + rewrite Z.min_l by lia. f_equal. lia.
    + rewrite Z.min_r by lia.
      replace (Z.to_nat (Z.of_nat (List.length l) - Z.of_nat i))
        with (List.length (skipn i l)) by (rewrite length_skipn; lia).
      rewrite firstn_all. symmetry. apply firstn_all2. rewrite length_skipn. lia.
  - rewrite (Z.min_r (Z.of_nat i)) by lia. rewrite Nat2Z.id.
    rewrite !skipn_all2 by lia. rewrite !firstn_nil. reflexivity.
Qed.

Lemma pieces_concat {A} (n : nat) : (0 < n)%nat ->
  forall fuel (l : list A), (List.length l <= fuel)%nat -> List.concat (pieces n fuel l) = l.
Proof.
  intros Hn. induction fuel as [|fuel IH]; intros l Hl.
  - destruct l; [reflexivity | simpl in Hl; lia].
  - destruct l as [|x l]; [reflexivity|].
    cbn [pieces List.concat]. rewrite IH.
    + apply firstn_skipn.
    + rewrite length_skipn.
      change (List.length (x :: l)) with (S (List.length l)) in *. lia.
Qed.

Lemma pieces_sizes {A} (n : nat) : (0 < n)%nat ->
  forall fuel (l : list A),
    Forall (fun b => (0 < List.length b <= n)%nat) (pieces n fuel l).
Proof.
  intros Hn. induction fuel as [|fuel IH]; intros l; [constructor|].
  destruct l as [|x l]; [constructor|].
  cbn [pieces]. constructor; [|apply IH].
  rewrite length_firstn.
  change (List.length (x :: l)) with (S (List.length l)). lia.
Qed.

(** Every piece that has a successor is full. *)
Lemma pieces_full {A} (n : nat) :
  forall fuel (l : list A) j b,
    nth_error (pieces n fuel l) j = Some b ->
    (S j < List.length (pieces n fuel l))%nat ->
    List.length b = n.
Proof.
  induction fuel as [|fuel IH]; intros l j b Hb Hj; [simpl in Hj; lia|].
  destruct l as [|x l]; [simpl in Hj; lia|].
  cbn [pieces] in *. destruct j as [|j].
  - simpl in Hb. inversion Hb; subst. clear Hb.
    rewrite length_firstn. 
    destruct (Nat.le_gt_cases n (List.length (x :: l))) as [Hle|Hgt]; [lia|].
    exfalso. rewrite skipn_all2 in Hj by lia.
    destruct fuel; simpl in Hj; lia.
  - simpl in Hb, Hj. eapply IH; [exact Hb | lia].
Qed.

Lemma promise_all_Returned {A} (l : list A) :
  promise_all (map Returned l) = Returned l.
Proof.
  induction l as [|a l IH]; simpl; [reflexivity|]. rewrite IH. reflexivity.
Qed.

Lemma map_indexed_app {A B} (f : A -> nat -> B) (a b : list A) : forall k,
  map_indexed f k (a ++ b)
  = map_indexed f k a ++ map_indexed f (k + List.length a) b.
Proof.
  induction a as [|x a IH]; intros k; simpl.
  - rewrite Nat.add_0_r. reflexivity.
  - rewrite IH. do 3 f_equal. lia.
Qed.

Lemma filter_non_null_app {A} (a b : list (option A)) :
  filter_non_null (a ++ b) = filter_non_null a ++ filter_non_null b.
Proof.
  induction a as [|[x|] a IH]; simpl; [reflexivity | rewrite IH; reflexivity | exact IH].
Qed.

Lemma In_filter_non_null_map_indexed {A B} (f : A -> nat -> option B) (l : list A) v :
  forall k,
    In v (filter_non_null (map_indexed f k l)) <->
    exists g x, (k <= g)%nat /\ nth_error l (g - k) = Some x /\ f x g = Some v.
Proof.
  induction l as [|a l IH]; intros k; simpl.
  - split; [tauto|]. intros (g & x & _ & H & _). destruct (g - k)%nat; discriminate.
  - assert (Hrest : In v (filter_non_null (map_indexed f (S k) l)) <->
              exists g x, (k < g)%nat /\ nth_error (a :: l) (g - k) = Some x
                          /\ f x g = Some v).
    { rewrite IH. split; intros (g & x & Hg & Hn & Hf); exists g, x.
      - replace (g - k)%nat with (S (g - S k)) by lia. auto.
      - replace (g - k)%nat with (S (g - S k)) in Hn by lia. auto. }
    assert (Hhead : f a k = Some v <->
              exists x, nth_error (a :: l) (k - k) = Some x /\ f x k = Some v).
    { rewrite Nat.sub_diag. simpl. split.
      - intros H. exists a. auto.
      - intros (x & Hx & Hf). inversion Hx; subst. exact Hf. }
    destruct (f a k) as [b|] eqn:E.
    + simpl. rewrite Hrest. split.
      * intros [->|(g & x & Hg & Hn & Hf)].
        -- exists k, a. rewrite Nat.sub_diag. simpl. auto.
        -- exists g, x. split; [lia|auto].
      * intros (g & x & Hg & Hn & Hf).
        destruct (Nat.eq_dec g k) as [->|Hne].
        -- left. rewrite Nat.sub_diag in Hn. simpl in Hn. inversion Hn; subst.
           congruence.
        -- right. exists g, x. split; [lia|auto].
    + rewrite Hrest. split.
      * intros (g & x & Hg & Hn & Hf). exists g, x. split; [lia|auto].
      * intros (g & x & Hg & Hn & Hf).
        destruct (Nat.eq_dec g k) as [->|Hne].
        -- rewrite Nat.sub_diag in Hn. simpl in Hn. inversion Hn; subst. congruence.
        -- exists g, x. split; [lia|auto].
Qed.

(** ** Batch scheduler *)

Section SchedulerFacts.

Variable number : Type.
Variable service : nat -> nat -> api_response number.
Variables uuidv4 toISOString : nat -> jsstring.

(** The value returned does not depend on the trace accumulated so far. *)
Lemma generateEmbeddingWithRetry_value api chunk :
  forall k retryCount w1 w2,
    (MAX_RETRIES - retryCount <= k)%nat ->
    requests w1 = requests w2 ->
    fst (generateEmbeddingWithRetry number api chunk retryCount w1)
    = fst (generateEmbeddingWithRetry number api chunk retryCount w2).
Proof.
  induction k as [|k IH]; intros retryCount w1 w2 Hk Hw;
    rewrite (generateEmbeddingWithRetry_body number api chunk retryCount w1),
            (generateEmbeddingWithRetry_body number api chunk retryCount w2);
    unfold embedContent; rewrite Hw;
    destruct (api (requests w2)) as [values|errorMessage]; try reflexivity;
    destruct (is_rate_limit errorMessage); try reflexivity;
    destruct (Nat.ltb_spec retryCount MAX_RETRIES); try reflexivity; try lia.
  apply IH; [lia|]. simpl. congruence.
Qed.

Lemma embed_task_vector_of fileName totalChunks q chunk batchIndex :
  (batchIndex < BATCH_SIZE)%nat ->
  embed_task number service uuidv4 toISOString fileName totalChunks
    (BATCH_SIZE * q) (BATCH_SIZE * q / BATCH_SIZE + 1) chunk batchIndex
  = Returned (vector_of number service uuidv4 toISOString fileName totalChunks
                (BATCH_SIZE * q + batchIndex) chunk).
Proof.
  intros Hb. unfold embed_task, vector_of, embedded.
  set (g := (BATCH_SIZE * q + batchIndex)%nat).
  rewrite (generateEmbeddingWithRetry_value (service g) chunk MAX_RETRIES 0
             (if (0 <? batchIndex)%nat then delay 200 world0 else world0) world0)
    by (try lia; destruct (0 <? batchIndex)%nat; reflexivity).
  destruct (generateEmbeddingWithRetry_returns number (service g) chunk
              MAX_RETRIES 0 world0 ltac:(lia)) as (r & w' & E & _).
  rewrite E. cbn [fst].
  destruct r as [e|]; [|reflexivity].
  do 4 f_equal.
  assert (Hdiv : (g / BATCH_SIZE = BATCH_SIZE * q / BATCH_SIZE)%nat).
  { unfold g. rewrite (Nat.mul_comm BATCH_SIZE q).
    rewrite Nat.div_add_l by (unfold BATCH_SIZE; lia).
    rewrite Nat.div_mul by (unfold BATCH_SIZE; lia).
    rewrite (Nat.div_small batchIndex) by exact Hb. lia. }
  rewrite Hdiv. reflexivity.
Qed.

Lemma map_indexed_embed_task fileName totalChunks q (batch : list jsstring) :
  forall k,
    (k + List.length batch <= BATCH_SIZE)%nat ->
    map_indexed
      (embed_task number service uuidv4 toISOString fileName totalChunks
         (BATCH_SIZE * q) (BATCH_SIZE * q / BATCH_SIZE + 1)) k batch
    = map Returned
        (map_indexed
           (fun chunk g =>
              vector_of number service uuidv4 toISOString fileName totalChunks g chunk)
           (BATCH_SIZE * q + k) batch).
Proof.
  induction batch as [|chunk batch IH]; intros k Hk; [reflexivity|].
  cbn [map_indexed map List.length] in *.
  rewrite embed_task_vector_of by lia.
  rewrite IH by lia. do 3 f_equal. lia.
Qed.

(** The loop as one equation, in the shape of the source. *)
Lemma batch_loop_body chunks fileName i vectors :
  batch_loop number service uuidv4 toISOString chunks fileName i vectors =
  if (i <? List.length chunks)%nat then
    match promise_all
            (map_indexed
               (embed_task number service uuidv4 toISOString fileName
                  (List.length chunks) i (i / BATCH_SIZE + 1))
               0%nat
               (slice chunks (Z.of_nat i) (Z.of_nat (i + BATCH_SIZE)))) with
    | Returned batchResults =>
        batch_loop number service uuidv4 toISOString chunks fileName
          (i + BATCH_SIZE) (vectors ++ filter_non_null batchResults)
    | Thrown e => Thrown e
    end
  else Returned vectors.
Proof.
  simp batch_loop.
  destruct (lt_dec i (List.length chunks)), (Nat.ltb_spec i (List.length chunks));
    try lia; simpl; [|reflexivity].
  destruct (promise_all _); reflexivity.
Qed.

Lemma batch_loop_spec chunks fileName :
  forall m q vectors,
    (List.length chunks - BATCH_SIZE * q <= m)%nat ->
    batch_loop number service uuidv4 toISOString chunks fileName
      (BATCH_SIZE * q) vectors
    = Returned
        (vectors ++
         filter_non_null
           (map_indexed
              (fun chunk g =>
                 vector_of number service uuidv4 toISOString fileName
                   (List.length chunks) g chunk)
              (BATCH_SIZE * q) (skipn (BATCH_SIZE * q) chunks))).
Proof.
  induction m as [|m IH]; intros q vectors Hm; rewrite batch_loop_body;
    destruct (Nat.ltb_spec (BATCH_SIZE * q) (List.length chunks)) as [Hlt|Hge];
    try lia.
  - rewrite skipn_all2 by lia. simpl. rewrite app_nil_r. reflexivity.
  - rewrite slice_nat.
    set (rest := skipn (BATCH_SIZE * q) chunks).
    rewrite (map_indexed_embed_task fileName (List.length chunks) q
               (firstn BATCH_SIZE rest) 0)
      by (rewrite length_firstn; lia).
    rewrite promise_all_Returned.
    replace (BATCH_SIZE * q + BATCH_SIZE)%nat with (BATCH_SIZE * S q)%nat by lia.
    rewrite IH by (unfold BATCH_SIZE in *; lia).
    rewrite <- app_assoc. do 2 f_equal.
    rewrite <- (firstn_skipn BATCH_SIZE rest) at 2.
    rewrite map_indexed_app, filter_non_null_app.
    rewrite Nat.add_0_r. f_equal.
    replace (skipn (BATCH_SIZE * S q) chunks) with (skipn BATCH_SIZE rest)
      by (unfold rest; rewrite skipn_skipn; f_equal; lia).
    destruct (Nat.le_gt_cases BATCH_SIZE (List.length rest)) as [Hfull|Hshort].
    + rewrite length_firstn, Nat.min_l by exact Hfull.
      do 2 f_equal. lia.
    + rewrite skipn_all2 by lia. reflexivity.
  - rewrite skipn_all2 by lia. simpl. rewrite app_nil_r. reflexivity.
Qed.

Lemma processChunksInBatches_spec chunks fileName :
  processChunksInBatches number service uuidv4 toISOString chunks fileName
  = Returned
      (filter_non_null
         (map_indexed
            (fun chunk g =>
               vector_of number service uuidv4 toISOString fileName
                 (List.length chunks) g chunk)
            0%nat chunks)).
Proof.
  unfold processChunksInBatches.
  change 0%nat with (BATCH_SIZE * 0)%nat at 1.
  rewrite (batch_loop_spec chunks fileName (List.length chunks) 0 []) by lia.
  reflexivity.
Qed.

End SchedulerFacts.

(** ** Upserter *)

Section UpserterFacts.

Variable number : Type.
Variable upsert_fails : nat -> bool.

(** The loop as one equation, in the shape of the source. *)
Lemma upsert_loop_body vectors i st :
  upsert_loop number upsert_fails vectors i st =
  if (i <? List.length vectors)%nat then
    match upsert number upsert_fails
            (slice vectors (Z.of_nat i) (Z.of_nat (i + UPSERT_BATCH_SIZE))) st with
    | (Returned _, st') =>
        upsert_loop number upsert_fails vectors (i + UPSERT_BATCH_SIZE) st'
    | (Thrown e, st') => (Thrown e, st')
    end
  else (Returned tt, st).
Proof.
  simp upsert_loop.
  destruct (lt_dec i (List.length vectors)), (Nat.ltb_spec i (List.length vectors));
    try lia; simpl; [|reflexivity].
  destruct (upsert _ _ _ _) as [[u|e] st']; reflexivity.
Qed.

(** The loop submits the consecutive batches of 100 one after the other. *)
Lemma upsert_loop_submit_all vectors :
  forall m q st,
    (List.length vectors - UPSERT_BATCH_SIZE * q <= m)%nat ->
    upsert_loop number upsert_fails vectors (UPSERT_BATCH_SIZE * q) st
    = submit_all number upsert_fails
        (pieces UPSERT_BATCH_SIZE m (skipn (UPSERT_BATCH_SIZE * q) vectors)) st.
Proof.
  induction m as [|m IH]; intros q st Hm; rewrite upsert_loop_body;
    destruct (Nat.ltb_spec (UPSERT_BATCH_SIZE * q) (List.length vectors))
      as [Hlt|Hge]; try lia.
  - reflexivity.
  - rewrite slice_nat.
    set (rest := skipn (UPSERT_BATCH_SIZE * q) vectors).
    assert (Hrest : (0 < List.length rest)%nat)
      by (unfold rest; rewrite length_skipn; lia).
    destruct rest as [|x rest'] eqn:Erest; [simpl in Hrest; lia|].
    cbn [pieces submit_all].
    destruct (upsert _ _ _ _) as [[u|e] st']; [|reflexivity].
    replace (UPSERT_BATCH_SIZE * q + UPSERT_BATCH_SIZE)%nat
      with (UPSERT_BATCH_SIZE * S q)%nat by lia.
    rewrite IH by (unfold UPSERT_BATCH_SIZE in *; lia).
    do 2 f_equal. rewrite <- Erest. unfold rest.
    rewrite skipn_skipn. f_equal. lia.
  - rewrite skipn_all2 by lia. reflexivity.
Qed.

Lemma upsert_loop_batches vectors st :
  upsert_loop number upsert_fails vectors 0 st
  = submit_all number upsert_fails (batches_of UPSERT_BATCH_SIZE vectors) st.
Proof.
  change 0%nat with (UPSERT_BATCH_SIZE * 0)%nat at 1.
  rewrite (upsert_loop_submit_all vectors (List.length vectors) 0 st) by lia.
  reflexivity.
Qed.

Lemma submit_all_accepted batches : forall st,
  (forall j, (j < List.length batches)%nat ->
             upsert_fails (List.length (submitted st) + j) = false) ->
  submit_all number upsert_fails batches st
  = (Returned tt, {| submitted := submitted st ++ batches;
                     stored := stored st ++ batches |}).
Proof.
  induction batches as [|b batches IH]; intros st H.
  - simpl. rewrite !app_nil_r. destruct st; reflexivity.
  - cbn [submit_all]. unfold upsert.
    assert (H0 : upsert_fails (List.length (submitted st)) = false).
    { rewrite <- (H 0%nat) by (simpl; lia). f_equal. lia. }
    rewrite H0, IH.
    + simpl. rewrite <- !app_assoc. reflexivity.
    + intros j Hj. cbn [submitted]. rewrite length_app.
      rewrite <- (H (S j)) by (simpl; lia). f_equal. simpl. lia.
Qed.

Lemma submit_all_rejected batches : forall k st,
  (k < List.length batches)%nat ->
  upsert_fails (List.length (submitted st) + k) = true ->
  (forall j, (j < k)%nat -> upsert_fails (List.length (submitted st) + j) = false) ->
  submit_all number upsert_fails batches st
  = (Thrown None, {| submitted := submitted st ++ firstn (S k) batches;
                     stored := stored st ++ firstn k batches |}).
Proof.
  induction batches as [|b batches IH]; intros k st Hk Hfail Hok;
    [simpl in Hk; lia|].
  cbn [submit_all]. unfold upsert.
  destruct k as [|k].
  - rewrite Nat.add_0_r in Hfail. rewrite Hfail.
    simpl. rewrite app_nil_r. reflexivity.
  - assert (H0 : upsert_fails (List.length (submitted st)) = false).
    { rewrite <- (Hok 0%nat) by lia. f_equal. lia. }
    rewrite H0, (IH k).
    + simpl. rewrite <- !app_assoc. reflexivity.
    + simpl in Hk. lia.
    + cbn [submitted]. rewrite length_app.
      rewrite <- Hfail. f_equal. simpl. lia.
    + intros j Hj. cbn [submitted]. rewrite length_app.
      rewrite <- (Hok (S j)) by lia. f_equal. simpl. lia.
Qed.

End UpserterFacts.

(** ** Claims on the scheduler, the upserter and the handler *)

Section PipelineClaims.

Variable number : Type.
Variable service : nat -> nat -> api_response number.
Variables uuidv4 toISOString : nat -> jsstring.
Variable upsert_fails : nat -> bool.
Variable getPineconeIndex_throws : bool.
Variable toUpperCase : code_unit -> jsstring.

Lemma vector_of_some fileName totalChunks g chunk v :
  vector_of number service uuidv4 toISOString fileName totalChunks g chunk = Some v ->
  embedded number service g chunk = Some (values v)
  /\ text (meta v) = chunk
  /\ source (meta v) = fileName
  /\ chunk_index (meta v) = g
  /\ total_chunks (meta v) = totalChunks
  /\ batch_number (meta v) = (g / BATCH_SIZE + 1)%nat.
Proof.
  unfold vector_of. destruct (embedded number service g chunk) as [e|]; [|discriminate].
  intros H. inversion H; subst. simpl. repeat split; reflexivity.
Qed.

(** The vectors of the result come from chunks whose embedding is not
    null, and carry their index, the chunk count and their batch. *)
Lemma vector_of_members chunks fileName v :
  In v (filter_non_null
          (map_indexed
             (fun chunk g =>
                vector_of number service uuidv4 toISOString fileName
                  (List.length chunks) g chunk)
             0%nat chunks)) ->
  let g := chunk_index (meta v) in
  nth_error chunks g = Some (text (meta v))
  /\ embedded number service g (text (meta v)) = Some (values v)
  /\ total_chunks (meta v) = List.length chunks
  /\ batch_number (meta v) = (g / BATCH_SIZE + 1)%nat.
Proof.
  intros Hv.
  apply In_filter_non_null_map_indexed in Hv.
  destruct Hv as (g & chunk & _ & Hn & Hf).
  rewrite Nat.sub_0_r in Hn.
  apply vector_of_some in Hf.
  destruct Hf as (He & Ht & _ & Hi & Htot & Hb).
  cbv zeta. rewrite Hi, Ht. auto.
Qed.

(** C8: the scheduler returns the vectors of the chunks whose embedding
    succeeded, in the order of the chunks; the vector made from the chunk
    of global index [g] records [chunk_index = g], the length of the chunk
    list as [total_chunks], and [batch_number = g / 10 + 1], the 1-based
    rank of the batch of ten consecutive chunks that holds it. *)
Theorem batches_and_metadata chunks fileName :
  exists vectors,
    processChunksInBatches number service uuidv4 toISOString chunks fileName
      = Returned vectors
    /\ vectors
       = filter_non_null
           (map_indexed
              (fun chunk g =>
                 vector_of number service uuidv4 toISOString fileName
                   (List.length chunks) g chunk)
              0%nat chunks)
    /\ (forall v, In v vectors ->
          let g := chunk_index (meta v) in
          nth_error chunks g = Some (text (meta v))
          /\ embedded number service g (text (meta v)) = Some (values v)
          /\ total_chunks (meta v) = List.length chunks
          /\ batch_number (meta v) = (g / 10 + 1)%nat)
    /\ (forall g chunk e,
          nth_error chunks g = Some chunk ->
          embedded number service g chunk = Some e ->
          exists v, In v vectors /\ chunk_index (meta v) = g /\ values v = e
                    /\ text (meta v) = chunk).
Proof.
  eexists. split; [apply processChunksInBatches_spec|].
  split; [reflexivity|]. split.
  - intros v Hv. exact (vector_of_members chunks fileName v Hv).
  - intros g chunk e Hn He.
    destruct (vector_of number service uuidv4 toISOString fileName
                (List.length chunks) g chunk) as [v|] eqn:Ev.
    + exists v. pose proof (vector_of_some _ _ _ _ _ Ev) as (He' & Ht & _ & Hi & _).
      split; [|split; [exact Hi | split; [congruence | exact Ht]]].
      apply In_filter_non_null_map_indexed.
      exists g, chunk. rewrite Nat.sub_0_r. split; [lia|auto].
    + unfold vector_of in Ev. rewrite He in Ev. discriminate.
Qed.

Lemma all_null_no_vectors chunks fileName :
  (forall g chunk, nth_error chunks g = Some chunk ->
                   embedded number service g chunk = None) ->
  filter_non_null
    (map_indexed
       (fun chunk g =>
          vector_of number service uuidv4 toISOString fileName
            (List.length chunks) g chunk)
       0%nat chunks) = [].
Proof.
  intros Hnull.
  destruct (filter_non_null _) as [|v l] eqn:E; [reflexivity|].
  assert (Hin : In v (v :: l)) by (left; reflexivity).
  rewrite <- E in Hin. apply In_filter_non_null_map_indexed in Hin.
  destruct Hin as (g & chunk & _ & Hn & Hf). rewrite Nat.sub_0_r in Hn.
  apply vector_of_some in Hf. destruct Hf as (He & _).
  rewrite (Hnull g chunk Hn) in He. discriminate.
Qed.

(** The handler once the segmenter has returned [chunks]. *)
Lemma POST_after_split fileName fileContent st chunks :
  len (trim fileContent) <> 0 ->
  splitTextIntoChunks toUpperCase fileContent 1500 200 = Some chunks ->
  POST number service uuidv4 toISOString upsert_fails
                  getPineconeIndex_throws toUpperCase
       fileName fileContent st
  = if len chunks =? 0 then Some (NO_CONTENT, st)
    else
      let vectors :=
        filter_non_null
          (map_indexed
             (fun chunk g =>
                vector_of number service uuidv4 toISOString fileName
                  (List.length chunks) g chunk)
             0%nat chunks) in
      if len vectors =? 0 then Some (NO_VECTORS, st)
      else if getPineconeIndex_throws then Some (INTERNAL_ERROR, st)
      else
        match upsert_loop number upsert_fails vectors 0 st with
        | (Thrown _, st') => Some (STORE_FAILURE, st')
        | (Returned _, st') =>
            Some ({| status := 200;
                     payload := OkBody (List.length vectors) (List.length chunks) |},
                  st')
        end.
Proof.
  intros Hblank Hsplit. unfold POST.
  destruct (Z.eqb_spec (len (trim fileContent)) 0); [contradiction|].
  rewrite Hsplit, processChunksInBatches_spec. reflexivity.
Qed.

(** C4: a chunk whose embedding came back null has no vector in the
    result; when that is so for every chunk the result is empty, and the
    handler then answers with the 500 response [NO_VECTORS], leaving the
    store untouched, where an empty chunk list gets the 400 response
    [NO_CONTENT]. *)
Theorem null_embeddings_dropped chunks fileName :
  exists vectors,
    processChunksInBatches number service uuidv4 toISOString chunks fileName
      = Returned vectors
    /\ (forall g chunk,
          nth_error chunks g = Some chunk ->
          embedded number service g chunk = None ->
          forall v, In v vectors -> chunk_index (meta v) <> g)
    /\ ((forall g chunk, nth_error chunks g = Some chunk ->
                         embedded number service g chunk = None) ->
        vectors = []
        /\ forall fileContent st,
             len (trim fileContent) <> 0 ->
             splitTextIntoChunks toUpperCase fileContent 1500 200 = Some chunks ->
             POST number service uuidv4 toISOString upsert_fails
                  getPineconeIndex_throws toUpperCase
                  fileName fileContent st
             = if len chunks =? 0 then Some (NO_CONTENT, st)
               else Some (NO_VECTORS, st))
    /\ status NO_VECTORS = 500
    /\ status NO_CONTENT = 400
    /\ NO_VECTORS <> NO_CONTENT.
Proof.
  eexists. split; [apply processChunksInBatches_spec|].
  split; [|split; [|repeat split]].
  - intros g chunk Hn He v Hvin Hg.
    destruct (vector_of_members chunks fileName v Hvin) as (Hn' & He' & _).
    cbv zeta in *.
    rewrite Hg in Hn', He'. rewrite Hn in Hn'. inversion Hn'; subst.
    rewrite He in He'. discriminate.
  - intros Hnull.
    pose proof (all_null_no_vectors chunks fileName Hnull) as Hempty.
    split; [exact Hempty|].
    intros fileContent st Hblank Hsplit.
    rewrite (POST_after_split fileName fileContent st chunks Hblank Hsplit).
    cbv zeta. rewrite Hempty. reflexivity.
  - intros H. discriminate H.
Qed.

(** C5: the upsert loop hands the consecutive batches of 100 vectors to the
    store in order.  When every call is accepted all of them are stored.
    When the call for batch [k] is the first to be rejected, the batches after
    it are never submitted, the batches before it stay stored, and the
    handler answers with the 500 response [STORE_FAILURE]. *)
Theorem upsert_batches_and_abort vectors st :
  let batches := batches_of UPSERT_BATCH_SIZE vectors in
  let calls := List.length (submitted st) in
  UPSERT_BATCH_SIZE = 100%nat
  /\ List.concat batches = vectors
  /\ Forall (fun b => (0 < List.length b <= 100)%nat) batches
  /\ (forall j b, nth_error batches j = Some b ->
                  (S j < List.length batches)%nat -> List.length b = 100%nat)
  /\ ((forall j, (j < List.length batches)%nat -> upsert_fails (calls + j) = false) ->
      upsert_loop number upsert_fails vectors 0 st
      = (Returned tt, {| submitted := submitted st ++ batches;
                         stored := stored st ++ batches |}))
  /\ (forall k,
        (k < List.length batches)%nat ->
        upsert_fails (calls + k) = true ->
        (forall j, (j < k)%nat -> upsert_fails (calls + j) = false) ->
        let st' := {| submitted := submitted st ++ firstn (S k) batches;
                      stored := stored st ++ firstn k batches |} in
        upsert_loop number upsert_fails vectors 0 st = (Thrown None, st')
        /\ forall fileName fileContent chunks,
             len (trim fileContent) <> 0 ->
             splitTextIntoChunks toUpperCase fileContent 1500 200 = Some chunks ->
             processChunksInBatches number service uuidv4 toISOString chunks fileName
               = Returned vectors ->
             getPineconeIndex_throws = false ->
             POST number service uuidv4 toISOString upsert_fails
                  getPineconeIndex_throws toUpperCase
                  fileName fileContent st
             = Some (STORE_FAILURE, st'))
  /\ status STORE_FAILURE = 500.
Proof.
  intros batches calls.
  split; [reflexivity|].
  split; [apply pieces_concat; [unfold UPSERT_BATCH_SIZE; lia | lia]|].
  split; [apply (pieces_sizes UPSERT_BATCH_SIZE); unfold UPSERT_BATCH_SIZE; lia|].
  split; [intros j b Hb Hj; apply (pieces_full _ _ _ _ _ Hb Hj)|].
  split; [|split; [|reflexivity]].
  - intros Hok. rewrite upsert_loop_batches. apply submit_all_accepted. exact Hok.
  - intros k Hk Hfail Hok st'.
    assert (Hloop : upsert_loop number upsert_fails vectors 0 st = (Thrown None, st')).
    { rewrite upsert_loop_batches. apply submit_all_rejected; assumption. }
    split; [exact Hloop|].
    intros fileName fileContent chunks Hblank Hsplit Hproc Hindex.
    rewrite (POST_after_split fileName fileContent st chunks Hblank Hsplit), Hindex.
    rewrite processChunksInBatches_spec in Hproc. inversion Hproc as [Hvec].
    cbv zeta. rewrite Hvec.
    assert (Hne : vectors <> []).
    { intros ->. simpl in Hk. lia. }
    destruct (Z.eqb_spec (len chunks) 0) as [Hz|_].
    { exfalso. apply Hne. rewrite <- Hvec.
      destruct chunks; [reflexivity | unfold len in Hz; simpl in Hz; lia]. }
    destruct (Z.eqb_spec (len vectors) 0) as [Hz|_].
    { exfalso. apply Hne. destruct vectors; [reflexivity | unfold len in Hz; simpl in Hz; lia]. }
    rewrite Hloop. reflexivity.
Qed.


End PipelineClaims.

(** ** Instances *)



Lemma service_down_null g chunk : embedded Z service_down g chunk = None.
Proof.
  unfold embedded. rewrite generateEmbeddingWithRetry_body. reflexivity.
Qed.

Lemma null_embeddings_dropped_witness :
  exists vectors,
    processChunksInBatches Z service_down sample_uuid sample_clock
      [tiny_document] (js "a.txt") = Returned vectors
    /\ vectors = []
    /\ POST Z service_down sample_uuid sample_clock (fun _ => false) false
            asciiToUpperCase (js "a.txt") tiny_document empty_store
       = Some (NO_VECTORS, empty_store).
Proof.
  destruct (null_embeddings_dropped Z service_down sample_uuid sample_clock
              (fun _ => false) false asciiToUpperCase [tiny_document] (js "a.txt"))
    as (vectors & Hp & _ & Hall & _).
  destruct (Hall (fun g chunk _ => service_down_null g chunk)) as (Hempty & Hpost).
  exists vectors. split; [exact Hp|]. split; [exact Hempty|].
  apply (Hpost tiny_document empty_store).
  - vm_compute. intros H; discriminate H.
  - vm_compute. reflexivity.
Defined.

Lemma upsert_batches_and_abort_witness :
  upsert_loop Z (fun n => Nat.eqb n 1) sample_vectors 0 empty_store
  = (Thrown None,
     {| submitted := [firstn 100 sample_vectors;
                      firstn 100 (skipn 100 sample_vectors)];
        stored := [firstn 100 sample_vectors] |}).
Proof.
  pose proof (upsert_batches_and_abort Z service_ok sample_uuid sample_clock
                (fun n => Nat.eqb n 1) false asciiToUpperCase sample_vectors empty_store)
    as (_ & _ & _ & _ & _ & Hfail & _).
  refine (proj1 (Hfail 1%nat _ _ _)).
  - apply Nat.ltb_lt. reflexivity.
  - reflexivity.
  - intros j Hj. destruct j as [|j]; [reflexivity | lia].
Defined.

Lemma batches_and_metadata_witness :
  exists vectors,
    processChunksInBatches Z service_ok sample_uuid sample_clock
      sample_chunks (js "a.txt") = Returned vectors
    /\ map (fun v => (chunk_index (meta v), total_chunks (meta v),
                      batch_number (meta v))) vectors
       = map (fun g => (g, 25, g / 10 + 1)%nat) (seq 0 25).
Proof.
  destruct (batches_and_metadata Z service_ok sample_uuid sample_clock
              sample_chunks (js "a.txt")) as (vectors & Hp & Hv & _).
  exists vectors. split; [exact Hp|].
  rewrite Hv. vm_compute. reflexivity.
Defined.

(** A digit after the space is accepted as the start of a sentence, since
    upper-casing leaves it unchanged. *)
Example digit_after_terminator :
  sentence_end_at asciiToUpperCase (js "See 4.5. 10 more") 7 = true
  /\ spec_sentence_end_at (js "See 4.5. 10 more") 7 = false.
Proof. split; reflexivity. Qed.

(** With [maxChars = 0], outside the segmenter's precondition, an iteration
    leaves the cursor where it was. *)
Example cursor_stalls_without_window :
  loop_body asciiToUpperCase (js "abc") 0 0 0 [] = Continue 0 [].
Proof. reflexivity. Qed.

(** The three ways of cutting a window of the default size: after a
    sentence end (here at the window's end offset itself), at the last space
    of the region, and at the window end. *)
Example cut_after_sentence :
  chunkEndIndex asciiToUpperCase sentence_at_window_end 1500 0 = 1501.
Proof. vm_compute. reflexivity. Qed.

Example cut_at_space :
  chunkEndIndex asciiToUpperCase
    (repeat 97%N 1400 ++ js " b" ++ repeat 97%N 400) 1500 0 = 1400.
Proof. vm_compute. reflexivity. Qed.

Example cut_at_window_end :
  chunkEndIndex asciiToUpperCase sentence_before_region 1500 0 = 1500.
Proof. vm_compute. reflexivity. Qed.

(* ===================================================================== *)
(** * Further properties of the upload route *)
(* ===================================================================== *)

(** ** Normalization (route.ts, lines 23-27) *)

Lemma starts_clean_app_l a b : a <> [] -> starts_clean (a ++ b) -> starts_clean a.
Proof. destruct a; [congruence | simpl; auto]. Qed.

Lemma spaced_app a : forall b, spaced (a ++ b) -> spaced a /\ spaced b.
Proof.
  induction a as [|c a IH]; intros b H; simpl in *; [auto|].
  destruct H as [Hc Hr]. destruct (IH b Hr) as [Ha Hb].
  repeat split; auto.
  intros Hw. specialize (Hc Hw). destruct a; [exact I | exact Hc].
Qed.

Lemma spaced_no_adjacent_ws s : spaced s -> no_adjacent_ws s.
Proof.
  intros Hs before x y after ->.
  apply spaced_app in Hs. destruct Hs as [_ Hs]. simpl in Hs.
  destruct Hs as [Hx _].
  destruct (is_ws x) eqn:Ex; [right | left; reflexivity].
  exact (Hx eq_refl).
Qed.

Lemma collapse_ws_cons_clean c r :
  is_ws c = false -> collapse_ws (c :: r) = c :: collapse_ws r.
Proof. intros H. simpl. rewrite H. reflexivity. Qed.

Lemma collapse_ws_only_spaces s : only_spaces (collapse_ws s).
Proof.
  unfold only_spaces. induction s as [|c r IH]; intros x Hin Hx; [destruct Hin|].
  cbn [collapse_ws] in Hin. destruct (is_ws c) eqn:Ec.
  - destruct r as [|d r'].
    + destruct Hin as [<-|[]]. reflexivity.
    + destruct (is_ws d); [exact (IH x Hin Hx)|].
      destruct Hin as [<-|Hin]; [reflexivity | exact (IH x Hin Hx)].
  - destruct Hin as [<-|Hin]; [congruence | exact (IH x Hin Hx)].
Qed.

Lemma collapse_ws_spaced s : spaced (collapse_ws s).
Proof.
  induction s as [|c r IH]; [exact I|].
  cbn [collapse_ws]. destruct (is_ws c) eqn:Ec.
  - destruct r as [|d r'].
    + simpl. auto.
    + destruct (is_ws d) eqn:Ed; [exact IH|].
      split; [|exact IH]. intros _.
      rewrite collapse_ws_cons_clean by exact Ed. exact Ed.
  - split; [congruence | exact IH].
Qed.

Lemma collapse_ws_fixed s : only_spaces s -> spaced s -> collapse_ws s = s.
Proof.
  induction s as [|c r IH]; intros Ho Hs; [reflexivity|].
  destruct Hs as [Hc Hr].
  assert (IH' : collapse_ws r = r).
  { apply IH; [|exact Hr]. intros x Hx. apply Ho. right. exact Hx. }
  cbn [collapse_ws]. destruct (is_ws c) eqn:Ec.
  - rewrite (Ho c (or_introl eq_refl) Ec).
    specialize (Hc eq_refl). destruct r as [|d r']; [reflexivity|].
    simpl in Hc. rewrite Hc. rewrite IH'. reflexivity.
  - rewrite IH'. reflexivity.
Qed.

Lemma trimStart_suffix s : exists before, s = before ++ trimStart s.
Proof.
  induction s as [|c r [before IH]]; [exists []; reflexivity|].
  simpl. destruct (is_ws c).
  - exists (c :: before). simpl. rewrite <- IH. reflexivity.
  - exists []. reflexivity.
Qed.

Lemma trimEnd_prefix s : exists after, s = trimEnd s ++ after.
Proof.
  unfold trimEnd. destruct (trimStart_suffix (rev s)) as [before H].
  exists (rev before).
  rewrite <- rev_app_distr, <- H, rev_involutive. reflexivity.
Qed.

Lemma trim_substring s : substring_of (trim s) s.
Proof.
  unfold substring_of, trim.
  destruct (trimStart_suffix s) as [before Hb].
  destruct (trimEnd_prefix (trimStart s)) as [after Ha].
  exists before, after. rewrite <- Ha. exact Hb.
Qed.

Lemma trimEnd_ends_clean s : ends_clean (trimEnd s).
Proof.
  unfold ends_clean, trimEnd. rewrite rev_involutive. apply trimStart_starts_clean.
Qed.

Lemma trim_starts_clean s : starts_clean (trim s).
Proof. unfold trim. apply trimEnd_starts_clean, trimStart_starts_clean. Qed.

Lemma trim_ends_clean s : ends_clean (trim s).
Proof. unfold trim. apply trimEnd_ends_clean. Qed.

Lemma trim_fixed s : starts_clean s -> ends_clean s -> trim s = s.
Proof.
  intros Hs He. unfold trim. rewrite (trimStart_fixed s Hs).
  unfold trimEnd. unfold ends_clean in He.
  rewrite (trimStart_fixed (rev s) He). apply rev_involutive.
Qed.

Lemma only_spaces_substring c s : substring_of c s -> only_spaces s -> only_spaces c.
Proof.
  intros (before & after & ->) H x Hx. apply H.
  apply in_or_app. right. apply in_or_app. left. exact Hx.
Qed.

Lemma spaced_substring c s : substring_of c s -> spaced s -> spaced c.
Proof.
  intros (before & after & ->) H.
  apply spaced_app in H. destruct H as [_ H].
  apply spaced_app in H. tauto.
Qed.

Lemma substring_of_trans a b c : substring_of a b -> substring_of b c -> substring_of a c.
Proof.
  intros (p & q & ->) (p' & q' & ->).
  exists (p' ++ p), (q ++ q'). rewrite <- !app_assoc. reflexivity.
Qed.

Lemma clean_only_spaces text : only_spaces (clean text).
Proof.
  unfold clean. eapply only_spaces_substring; [apply trim_substring|].
  apply collapse_ws_only_spaces.
Qed.

Lemma clean_spaced text : spaced (clean text).
Proof.
  unfold clean. eapply spaced_substring; [apply trim_substring|].
  apply collapse_ws_spaced.
Qed.

Lemma only_spaces_no_cr s : only_spaces s -> ~ In CR s.
Proof. intros H Hin. specialize (H CR Hin eq_refl). discriminate H. Qed.

Lemma replace_cr_fixed s : ~ In CR s -> replace_cr s = s.
Proof.
  unfold replace_cr. induction s as [|c r IH]; intros H; [reflexivity|].
  simpl. destruct (N.eqb_spec c CR) as [->|_].
  - exfalso. apply H. left. reflexivity.
  - rewrite IH; [reflexivity|]. intros Hin. apply H. right. exact Hin.
Qed.

Lemma replace_crlf_fixed : forall n s,
  (List.length s <= n)%nat -> ~ In CR s -> replace_crlf s = s.
Proof.
  induction n as [|n IH]; intros s Hn H.
  - destruct s; [reflexivity | simpl in Hn; lia].
  - destruct s as [|c r]; [reflexivity|].
    cbn [replace_crlf]. destruct r as [|d r']; [reflexivity|].
    destruct (N.eqb_spec c CR) as [->|_].
    + exfalso. apply H. left. reflexivity.
    + cbn [andb]. rewrite IH; [reflexivity | simpl in *; lia |].
      intros Hin. apply H. right. exact Hin.
Qed.

Lemma clean_fixed s :
  only_spaces s -> spaced s -> starts_clean s -> ends_clean s -> clean s = s.
Proof.
  intros Ho Hs Hb He. unfold clean.
  rewrite (replace_crlf_fixed (List.length s) s (le_n _) (only_spaces_no_cr s Ho)).
  rewrite (replace_cr_fixed s (only_spaces_no_cr s Ho)).
  rewrite (collapse_ws_fixed s Ho Hs).
  apply trim_fixed; assumption.
Qed.

Lemma clean_idempotent text : clean (clean text) = clean text.
Proof.
  apply clean_fixed.
  - apply clean_only_spaces.
  - apply clean_spaced.
  - apply trim_starts_clean.
  - apply trim_ends_clean.
Qed.

(** X1: the normalized text holds no white space but single space
    characters: every white-space character in it is U+0020, no two
    neighbours are both white space, and it neither begins nor ends with
    one. *)
Theorem normalized_text_single_spaced text :
  only_spaces (clean text)
  /\ no_adjacent_ws (clean text)
  /\ starts_clean (clean text)
  /\ ends_clean (clean text).
Proof.
  split; [apply clean_only_spaces|].
  split; [apply spaced_no_adjacent_ws, clean_spaced|].
  split; [apply trim_starts_clean | apply trim_ends_clean].
Qed.

(** X2: normalizing is idempotent, and the segmenter depends on its input
    only through the normalized text: segmenting a text and segmenting its
    normalized form give the same chunks. *)
Theorem segmentation_of_normalized_text toUpperCase text maxChars overlap :
  clean (clean text) = clean text
  /\ splitTextIntoChunks toUpperCase (clean text) maxChars overlap
     = splitTextIntoChunks toUpperCase text maxChars overlap.
Proof.
  split; [apply clean_idempotent|].
  unfold splitTextIntoChunks, splitTextIntoChunks_fuel.
  rewrite clean_idempotent. reflexivity.
Qed.

(** ** Segmenter: what the chunks are (route.ts, lines 29-101) *)

Lemma slice_substring (s : jsstring) a b : substring_of (slice s a b) s.
Proof.
  unfold substring_of, slice.
  set (m := Z.to_nat (clamp_index s a)).
  set (n := Z.to_nat (clamp_index s b - clamp_index s a)).
  exists (firstn m s), (skipn n (skipn m s)).
  rewrite (firstn_skipn n (skipn m s)). symmetry. apply firstn_skipn.
Qed.

Lemma substring_of_refl (s : jsstring) : substring_of s s.
Proof. exists [], []. rewrite app_nil_r. reflexivity. Qed.

(** The segmenter returns for a positive [maxChars], and its chunks satisfy
    every property that the whole normalized text has on the single-chunk
    path and that the chunks pushed by the loop have. *)
Lemma splitTextIntoChunks_all toUpperCase (P : jsstring -> Prop) text maxChars overlap :
  0 < maxChars ->
  (len (clean text) <= maxChars -> P (clean text)) ->
  (forall startIndex,
      0 <= startIndex < len (clean text) ->
      len (clean text) <= startIndex + maxChars ->
      50 < len (trim (slice_from (clean text) startIndex)) ->
      P (trim (slice_from (clean text) startIndex))) ->
  (forall startIndex,
      0 <= startIndex ->
      startIndex + maxChars < len (clean text) ->
      let ce := chunkEndIndex toUpperCase (clean text) maxChars startIndex in
      50 < len (trim (slice (clean text) startIndex ce)) ->
      P (trim (slice (clean text) startIndex ce))) ->
  exists chunks,
    splitTextIntoChunks toUpperCase text maxChars overlap = Some chunks
    /\ Forall P chunks.
Proof.
  intros Hm Hshort Hfinal Hinner.
  destruct (Z.leb_spec (len (clean text)) maxChars) as [Hle|Hgt].
  - exists [clean text]. split.
    + unfold splitTextIntoChunks, splitTextIntoChunks_fuel.
      destruct (Z.leb_spec (len (clean text)) maxChars); [reflexivity | lia].
    + constructor; [auto | constructor].
  - apply splitTextIntoChunks_long; assumption.
Qed.

(** X3: for a positive [maxChars] the segmenter returns, and each chunk is
    a run of consecutive characters of the normalized text, copied as it
    stands, that neither begins nor ends with white space. *)
Theorem chunks_are_trimmed_substrings toUpperCase text maxChars overlap :
  0 < maxChars ->
  exists chunks,
    splitTextIntoChunks toUpperCase text maxChars overlap = Some chunks
    /\ Forall (fun chunk =>
                 substring_of chunk (clean text)
                 /\ starts_clean chunk /\ ends_clean chunk
                 /\ trim chunk = chunk) chunks.
Proof.
  intros Hm.
  apply splitTextIntoChunks_all; [exact Hm | | |].
  - intros _. split; [apply substring_of_refl|].
    split; [apply trim_starts_clean|]. split; [apply trim_ends_clean|].
    unfold clean. apply trim_idempotent.
  - intros startIndex _ _ _.
    split; [eapply substring_of_trans; [apply trim_substring | apply slice_substring]|].
    split; [apply trim_starts_clean|]. split; [apply trim_ends_clean|].
    apply trim_idempotent.
  - intros startIndex _ _ ce _.
    split; [eapply substring_of_trans; [apply trim_substring | apply slice_substring]|].
    split; [apply trim_starts_clean|]. split; [apply trim_ends_clean|].
    apply trim_idempotent.
Qed.

Lemma chunks_are_trimmed_substrings_witness :
  exists chunks,
    splitTextIntoChunks asciiToUpperCase sentence_before_region 1500 200
      = Some chunks
    /\ Forall (fun chunk =>
                 substring_of chunk (clean sentence_before_region)
                 /\ starts_clean chunk /\ ends_clean chunk
                 /\ trim chunk = chunk) chunks.
Proof.
  apply (chunks_are_trimmed_substrings asciiToUpperCase sentence_before_region
           1500 200).
  lia.
Defined.

(** X4: for a positive [maxChars] the segmenter returns, and no chunk is
    longer than [maxChars + 1] characters. *)
Theorem chunks_at_most_one_over_maxChars toUpperCase text maxChars overlap :
  0 < maxChars ->
  exists chunks,
    splitTextIntoChunks toUpperCase text maxChars overlap = Some chunks
    /\ Forall (fun chunk => len chunk <= maxChars + 1) chunks.
Proof.
  intros Hm.
  apply splitTextIntoChunks_all; [exact Hm | | |].
  - intros H. lia.
  - intros startIndex Hs0 Hend _.
    pose proof (trim_length (slice_from (clean text) startIndex)).
    pose proof (slice_from_length (clean text) startIndex). lia.
  - intros startIndex Hs0 Hend ce _.
    pose proof (chunkEndIndex_bounds toUpperCase (clean text) maxChars startIndex Hm).
    pose proof (searchStart_bounds startIndex maxChars Hm).
    pose proof (trim_length (slice (clean text) startIndex ce)).
    pose proof (slice_length (clean text) startIndex ce). subst ce. lia.
Qed.

Lemma chunks_at_most_one_over_maxChars_witness :
  exists chunks,
    splitTextIntoChunks asciiToUpperCase sentence_at_window_end 1500 200
      = Some chunks
    /\ Forall (fun chunk => len chunk <= 1500 + 1) chunks.
Proof.
  apply (chunks_at_most_one_over_maxChars asciiToUpperCase
           sentence_at_window_end 1500 200).
  lia.
Defined.

(** X5: in an iteration that goes on, with [maxChars] positive and
    [overlap] not negative, the next window starts at most [overlap]
    characters before the cut just made and never after it, and strictly
    after the start of the current window: no character is skipped between
    two windows, and at most [overlap] characters are read twice. *)
Theorem next_window_overlaps_cut toUpperCase cleanedText maxChars overlap
    startIndex chunks startIndex' chunks' :
  0 < maxChars ->
  0 <= overlap ->
  loop_body toUpperCase cleanedText maxChars overlap startIndex chunks
    = Continue startIndex' chunks' ->
  let cut := chunkEndIndex toUpperCase cleanedText maxChars startIndex in
  cut - overlap <= startIndex' <= cut
  /\ startIndex < startIndex'
  /\ startIndex < cut <= startIndex + maxChars + 1.
Proof.
  intros Hm Ho H cut.
  pose proof (chunkEndIndex_bounds toUpperCase cleanedText maxChars startIndex Hm) as Hb.
  pose proof (searchStart_bounds startIndex maxChars Hm) as Hs.
  fold cut in Hb.
  unfold loop_body in H.
  destruct (Z.geb_spec (startIndex + maxChars) (len cleanedText)); [discriminate|].
  inversion H as [[Hs' Hc']]. clear H Hc'. fold cut.
  destruct (Z.geb_spec (Z.max (cut - overlap) (startIndex + 1)) cut); lia.
Qed.

Lemma next_window_overlaps_cut_witness :
  let cut := chunkEndIndex asciiToUpperCase sentence_at_window_end 1500 0 in
  cut - 200 <= 1301 <= cut /\ 0 < 1301 /\ 0 < cut <= 0 + 1500 + 1.
Proof.
  apply (next_window_overlaps_cut asciiToUpperCase sentence_at_window_end
           1500 200 0 [] 1301
           [firstn 1501 sentence_at_window_end]); [lia | lia |].
  vm_compute. reflexivity.
Defined.

(** ** Segmenter: there is always a chunk *)

Lemma trimStart_spaced_length s :
  spaced s -> len s - 1 <= len (trimStart s).
Proof.
  destruct s as [|c r]; [unfold len; simpl; lia|].
  intros [Hc _]. cbn [trimStart]. destruct (is_ws c) eqn:Ec.
  - rewrite (trimStart_fixed r (Hc eq_refl)). unfold len.
    change (List.length (c :: r)) with (S (List.length r)). lia.
  - lia.
Qed.

Lemma no_adjacent_ws_rev s : no_adjacent_ws s -> no_adjacent_ws (rev s).
Proof.
  intros H before x y after E.
  apply (f_equal (@rev code_unit)) in E. rewrite rev_involutive in E.
  rewrite rev_app_distr in E. simpl in E. rewrite <- !app_assoc in E. simpl in E.
  destruct (H _ _ _ _ E); auto.
Qed.

Lemma no_adjacent_ws_spaced s : no_adjacent_ws s -> spaced s.
Proof.
  induction s as [|c r IH]; intros H; [exact I|].
  split.
  - intros Hc. destruct r as [|d r']; [exact I|]. simpl.
    destruct (H [] c d r' eq_refl); congruence.
  - apply IH. intros before x y after ->.
    apply (H (c :: before) x y after). reflexivity.
Qed.

Lemma trimEnd_spaced_length s : spaced s -> len s - 1 <= len (trimEnd s).
Proof.
  intros Hs. unfold trimEnd.
  assert (Hr : spaced (rev s))
    by (apply no_adjacent_ws_spaced, no_adjacent_ws_rev, spaced_no_adjacent_ws, Hs).
  pose proof (trimStart_spaced_length (rev s) Hr) as H.
  unfold len in *. rewrite length_rev in *. exact H.
Qed.

(** Trimming a piece of spaced text that starts with a character that is
    not white space removes at most one character. *)
Lemma trim_spaced_length s :
  spaced s -> starts_clean s -> len s - 1 <= len (trim s).
Proof.
  intros Hs Hc. unfold trim. rewrite (trimStart_fixed s Hc).
  apply trimEnd_spaced_length, Hs.
Qed.

Lemma slice_prefix (s : jsstring) b :
  0 <= b <= len s -> slice s 0 b = firstn (Z.to_nat b) s.
Proof.
  intros Hb. unfold slice, clamp_index.
  destruct (Z.ltb_spec b 0); [lia|]. change (0 <? 0) with false.
  cbv iota. pose proof (len_nonneg s).
  rewrite (Z.min_l 0) by lia. rewrite (Z.min_l b) by lia.
  rewrite Z.sub_0_r. reflexivity.
Qed.

Lemma split_loop_extends toUpperCase cleanedText maxChars overlap :
  forall fuel startIndex chunks result,
    split_loop toUpperCase fuel cleanedText maxChars overlap startIndex chunks
      = Some result ->
    exists more, result = chunks ++ more.
Proof.
  assert (Hpush : forall chunks chunk,
             exists more, push_if_substantial chunks chunk = chunks ++ more).
  { intros chunks chunk. unfold push_if_substantial.
    destruct (_ >? _); [eexists; reflexivity | exists []; symmetry; apply app_nil_r]. }
  induction fuel as [|fuel IH]; intros startIndex chunks result H; [discriminate|].
  simpl in H. destruct (startIndex <? len cleanedText).
  - destruct (loop_body _ _ _ _ _ _) as [r|s' c'] eqn:E.
    + inversion H; subst. unfold loop_body in E.
      destruct (_ >=? _); [|discriminate]. inversion E. apply Hpush.
    + apply IH in H. destruct H as [more ->].
      apply loop_body_continue in E. destruct E as (_ & _ & ->).
      destruct (Hpush chunks
                  (trim (slice cleanedText startIndex
                           (chunkEndIndex toUpperCase cleanedText maxChars startIndex))))
        as [m ->].
      exists (m ++ more). rewrite app_assoc. reflexivity.
  - inversion H; subst. exists []. symmetry. apply app_nil_r.
Qed.

(** The chunk cut from the first window of a text longer than [maxChars]
    has at least [searchStart 0 maxChars - 1] characters. *)
Lemma first_chunk_length toUpperCase text maxChars :
  0 < maxChars ->
  maxChars < len (clean text) ->
  searchStart 0 maxChars - 1
  <= len (trim (slice (clean text) 0
                  (chunkEndIndex toUpperCase (clean text) maxChars 0))).
Proof.
  intros Hm Hlong.
  pose proof (chunkEndIndex_bounds toUpperCase (clean text) maxChars 0 Hm) as Hb.
  pose proof (searchStart_bounds 0 maxChars Hm) as Hs.
  set (ce := chunkEndIndex toUpperCase (clean text) maxChars 0) in *.
  rewrite slice_prefix by lia.
  assert (Hsub : substring_of (firstn (Z.to_nat ce) (clean text)) (clean text)).
  { exists [], (skipn (Z.to_nat ce) (clean text)). simpl. symmetry. apply firstn_skipn. }
  assert (Hlen : len (firstn (Z.to_nat ce) (clean text)) = ce).
  { unfold len in *. rewrite length_firstn. lia. }
  assert (Hclean : starts_clean (firstn (Z.to_nat ce) (clean text))).
  { pose proof (trim_starts_clean (collapse_ws (replace_cr (replace_crlf text)))) as Hc.
    fold (clean text) in Hc.
    destruct (clean text) as [|c r]; [unfold len in Hlong; simpl in Hlong; lia|].
    destruct (Z.to_nat ce) eqn:E; [lia|]. simpl. exact Hc. }
  pose proof (trim_spaced_length _ (spaced_substring _ _ Hsub (clean_spaced text)) Hclean).
  lia.
Qed.

(** In a text longer than [maxChars >= 73] the loop keeps the chunk of the
    first window and puts it first. *)
Lemma split_loop_first_chunk toUpperCase text maxChars overlap :
  73 <= maxChars ->
  maxChars < len (clean text) ->
  let first :=
    trim (slice (clean text) 0
            (chunkEndIndex toUpperCase (clean text) maxChars 0)) in
  50 < len first
  /\ exists more,
       split_loop toUpperCase (S (List.length (clean text))) (clean text)
         maxChars overlap 0 [] = Some (first :: more).
Proof.
  intros Hm Hlong first.
  assert (Hpos : 0 < maxChars) by lia.
  pose proof (first_chunk_length toUpperCase text maxChars Hpos Hlong) as Hfirst.
  fold first in Hfirst.
  assert (Hstart : 52 <= searchStart 0 maxChars).
  { unfold searchStart.
    assert (52 <= (7 * maxChars + 9) / 10) by (apply Z.div_le_lower_bound; lia).
    lia. }
  split; [lia|].
  destruct (split_loop_terminates toUpperCase (clean text) maxChars overlap Hpos
              (S (List.length (clean text))) 0 []) as [r Hr].
  { unfold len. lia. }
  rewrite Hr. cbn [split_loop] in Hr.
  destruct (Z.ltb_spec 0 (len (clean text))) as [_|Hge]; [|lia].
  unfold loop_body in Hr.
  destruct (Z.geb_spec (0 + maxChars) (len (clean text))) as [Hge|_]; [lia|].
  cbv zeta in Hr. fold first in Hr.
  unfold push_if_substantial in Hr. cbn [app] in Hr.
  destruct (Z.gtb_spec (len first) 50) as [_|Hsmall]; [|lia].
  apply split_loop_extends in Hr. destruct Hr as [more ->].
  exists more. reflexivity.
Qed.

Lemma splitTextIntoChunks_nonempty toUpperCase text maxChars overlap :
  73 <= maxChars ->
  exists chunk chunks,
    splitTextIntoChunks toUpperCase text maxChars overlap = Some (chunk :: chunks).
Proof.
  intros Hm.
  unfold splitTextIntoChunks, splitTextIntoChunks_fuel.
  destruct (Z.leb_spec (len (clean text)) maxChars) as [Hshort|Hlong]; [eauto|].
  destruct (split_loop_first_chunk toUpperCase text maxChars overlap Hm Hlong)
    as (Hlen & more & ->).
  cbn [option_map filter].
  destruct (Z.geb_spec
              (len (trim (slice (clean text) 0
                            (chunkEndIndex toUpperCase (clean text) maxChars 0)))) 50);
    [eauto | lia].
Qed.

(** X6: when [maxChars] is at least 73, as with the default 1500, the
    segmenter returns at least one chunk for every text whatever, and the
    first chunk starts where the normalized text starts: it is the whole
    normalized text on the single-chunk path, and otherwise the trimmed
    first window up to its cut, which is longer than 50 characters. *)
Theorem segmenter_returns_a_chunk toUpperCase text maxChars overlap :
  73 <= maxChars ->
  exists chunk chunks,
    splitTextIntoChunks toUpperCase text maxChars overlap = Some (chunk :: chunks)
    /\ ((len (clean text) <= maxChars /\ chunk = clean text /\ chunks = [])
        \/ (maxChars < len (clean text)
            /\ chunk = trim (slice (clean text) 0
                               (chunkEndIndex toUpperCase (clean text) maxChars 0))
            /\ 50 < len chunk)).
Proof.
  intros Hm.
  unfold splitTextIntoChunks, splitTextIntoChunks_fuel.
  destruct (Z.leb_spec (len (clean text)) maxChars) as [Hshort|Hlong].
  - exists (clean text), []. split; [reflexivity|]. left. auto.
  - destruct (split_loop_first_chunk toUpperCase text maxChars overlap Hm Hlong)
      as (Hlen & more & ->).
    cbn [option_map filter].
    destruct (Z.geb_spec
                (len (trim (slice (clean text) 0
                              (chunkEndIndex toUpperCase (clean text) maxChars 0)))) 50)
      as [_|Hsmall]; [|lia].
    eexists _, _. split; [reflexivity|]. right. auto.
Qed.

Lemma segmenter_returns_a_chunk_witness :
  exists chunk chunks,
    splitTextIntoChunks asciiToUpperCase (repeat SP 2000) 1500 200
      = Some (chunk :: chunks).
Proof.
  destruct (segmenter_returns_a_chunk asciiToUpperCase (repeat SP 2000) 1500 200)
    as (chunk & chunks & H & _); [lia|].
  exists chunk, chunks. exact H.
Defined.

(** ** Embedder: bounds and the successful retry (route.ts, lines 112-143) *)

Lemma pow2_succ (n : nat) : 2 ^ Z.of_nat (S n) = 2 * 2 ^ Z.of_nat n.
Proof. rewrite Nat2Z.inj_succ. apply Z.pow_succ_r. lia. Qed.

Lemma pow2_pos (n : nat) : 0 < 2 ^ Z.of_nat n.
Proof. apply Z.pow_pos_nonneg; lia. Qed.

Lemma total_wait_app a b : total_wait (a ++ b) = total_wait a + total_wait b.
Proof.
  induction a as [|[c|ms] a IH]; simpl; rewrite ?IH; lia.
Qed.

Lemma request_count_app a b :
  request_count (a ++ b) = (request_count a + request_count b)%nat.
Proof.
  induction a as [|[c|ms] a IH]; simpl; rewrite ?IH; lia.
Qed.

Section EmbedderBounds.

Variable number : Type.
Variable api : nat -> api_response number.
Variable chunk : jsstring.

(** What a call adds to the trace: at least one request and at most one per
    remaining retry plus one, with waits that double from
    [BASE_RETRY_DELAY * 2 ^ retryCount]. *)
Lemma generateEmbeddingWithRetry_trace :
  forall k retryCount w,
    (MAX_RETRIES - retryCount <= k)%nat ->
    (retryCount <= MAX_RETRIES)%nat ->
    exists r w' added,
      generateEmbeddingWithRetry number api chunk retryCount w = (Returned r, w')
      /\ log w' = log w ++ added
      /\ requests w' = (requests w + request_count added)%nat
      /\ (1 <= request_count added <= MAX_RETRIES + 1 - retryCount)%nat
      /\ 0 <= total_wait added
         <= BASE_RETRY_DELAY * (2 ^ Z.of_nat MAX_RETRIES - 2 ^ Z.of_nat retryCount).
Proof.
  assert (Hone : forall retryCount w (r : option (embedding number)),
             (retryCount <= MAX_RETRIES)%nat ->
             exists r' w' added,
               (Returned r, {| requests := S (requests w);
                               log := log w ++ [Request chunk] |})
               = (Returned r', w')
               /\ log w' = log w ++ added
               /\ requests w' = (requests w + request_count added)%nat
               /\ (1 <= request_count added <= MAX_RETRIES + 1 - retryCount)%nat
               /\ 0 <= total_wait added
                  <= BASE_RETRY_DELAY
                     * (2 ^ Z.of_nat MAX_RETRIES - 2 ^ Z.of_nat retryCount)).
  { intros retryCount w r Hle.
    exists r, {| requests := S (requests w); log := log w ++ [Request chunk] |},
      [Request chunk].
    split; [reflexivity|]. split; [reflexivity|].
    cbn [request_count total_wait requests].
    split; [lia|]. split; [lia|].
    split; [lia|].
    assert (2 ^ Z.of_nat retryCount <= 2 ^ Z.of_nat MAX_RETRIES)
      by (apply Z.pow_le_mono_r; lia).
    unfold BASE_RETRY_DELAY. lia. }
  induction k as [|k IH]; intros retryCount w Hk Hle;
    rewrite generateEmbeddingWithRetry_body; unfold embedContent;
    destruct (api (requests w)) as [values|errorMessage];
    try (apply Hone; exact Hle);
    destruct (is_rate_limit errorMessage); try (apply Hone; exact Hle);
    destruct (Nat.ltb_spec retryCount MAX_RETRIES) as [Hlt|Hge];
    try (apply Hone; exact Hle); try lia.
  destruct (IH (S retryCount)
              (delay (BASE_RETRY_DELAY * 2 ^ Z.of_nat retryCount)
                 {| requests := S (requests w); log := log w ++ [Request chunk] |}))
    as (r & w' & added & E & Hlog & Hreq & Hcount & Hwait); [lia | lia |].
  exists r, w',
    (Request chunk :: Wait (BASE_RETRY_DELAY * 2 ^ Z.of_nat retryCount) :: added).
  split; [exact E|].
  split; [rewrite Hlog; cbn [delay log]; rewrite <- !app_assoc; reflexivity|].
  split; [rewrite Hreq; cbn [delay requests request_count]; lia|].
  split; [cbn [request_count]; lia|].
  cbn [total_wait]. rewrite pow2_succ in Hwait.
  pose proof (pow2_pos retryCount). unfold BASE_RETRY_DELAY in *. lia.
Qed.

(** A call that meets [retries] rate limits and then a non-empty vector
    returns that vector, after the trace [retry_trace]. *)
Lemma generateEmbeddingWithRetry_succeeds e :
  e <> [] ->
  forall retries retryCount w,
    (retryCount + retries <= MAX_RETRIES)%nat ->
    (forall j, (j < retries)%nat ->
       exists m, api (requests w + j)%nat = Rejected m /\ is_rate_limit m = true) ->
    api (requests w + retries)%nat = Resolved (Some e) ->
    generateEmbeddingWithRetry number api chunk retryCount w
    = (Returned (Some e),
       {| requests := (requests w + retries + 1)%nat;
          log := log w ++ retry_trace chunk retryCount retries |}).
Proof.
  intros He. induction retries as [|retries IH]; intros retryCount w Hle Hrate Hok;
    rewrite generateEmbeddingWithRetry_body; unfold embedContent.
  - rewrite Nat.add_0_r in Hok. rewrite Hok. cbn [non_empty_or_null].
    destruct (Z.gtb_spec (len e) 0) as [_|Hz].
    + do 2 f_equal. f_equal. lia.
    + destruct e; [congruence | unfold len in Hz; simpl in Hz; lia].
  - destruct (Hrate 0%nat ltac:(lia)) as (m & Em & Rm).
    rewrite Nat.add_0_r in Em. rewrite Em, Rm.
    destruct (Nat.ltb_spec retryCount MAX_RETRIES) as [_|Hge]; [|lia].
    rewrite IH.
    + cbn [delay requests log retry_trace]. do 2 f_equal.
      * lia.
      * rewrite <- !app_assoc. reflexivity.
    + lia.
    + intros j Hj. cbn [delay requests].
      replace (S (requests w) + j)%nat with (requests w + S j)%nat by lia.
      apply Hrate. lia.
    + cbn [delay requests].
      replace (S (requests w) + retries)%nat with (requests w + S retries)%nat by lia.
      exact Hok.
Qed.

Lemma retry_trace_wait : forall retries retryCount,
  total_wait (retry_trace chunk retryCount retries)
  = BASE_RETRY_DELAY * 2 ^ Z.of_nat retryCount * (2 ^ Z.of_nat retries - 1).
Proof.
  induction retries as [|retries IH]; intros retryCount.
  - simpl. lia.
  - cbn [retry_trace total_wait]. rewrite IH, !pow2_succ. ring.
Qed.

End EmbedderBounds.

(** X8: when the first [retries] requests (at most three) are rejected
    with a rate-limit error and the next one resolves with a non-empty
    vector, the embedder returns that very vector after [retries + 1]
    requests, having waited [1000 * (2 ^ retries - 1)] ms in all. *)
Theorem embedder_succeeds_after_rate_limits number api chunk retries e :
  (retries <= 3)%nat ->
  e <> [] ->
  (forall j, (j < retries)%nat ->
     exists m, api j = Rejected m /\ is_rate_limit m = true) ->
  api retries = Resolved (Some e) ->
  generateEmbeddingWithRetry number api chunk 0 world0
  = (Returned (Some e),
     {| requests := S retries; log := retry_trace chunk 0 retries |})
  /\ total_wait (retry_trace chunk 0 retries) = 1000 * (2 ^ Z.of_nat retries - 1)
  /\ request_count (retry_trace chunk 0 retries) = S retries.
Proof.
  intros Hk He Hrate Hok.
  split; [|split].
  - rewrite (generateEmbeddingWithRetry_succeeds number api chunk e He retries 0 world0);
      [| unfold MAX_RETRIES; lia | exact Hrate | exact Hok].
    simpl. do 2 f_equal. lia.
  - rewrite retry_trace_wait. unfold BASE_RETRY_DELAY. simpl (2 ^ Z.of_nat 0). lia.
  - clear. generalize 0%nat. induction retries as [|retries IH]; intros n;
      [reflexivity|]. cbn [retry_trace request_count]. rewrite IH. reflexivity.
Qed.

Lemma embedder_succeeds_after_rate_limits_witness :
  generateEmbeddingWithRetry Z
    (fun n => if (n <? 2)%nat then Rejected (Some (js "429 Too Many Requests"))
              else Resolved (Some [1; 2]))
    (js "chunk") 0 world0
  = (Returned (Some [1; 2]),
     {| requests := 3;
        log := [Request (js "chunk"); Wait 1000; Request (js "chunk");
                Wait 2000; Request (js "chunk")] |}).
Proof.
  refine (proj1 (embedder_succeeds_after_rate_limits Z
            (fun n => if (n <? 2)%nat then Rejected (Some (js "429 Too Many Requests"))
                      else Resolved (Some [1; 2]))
            (js "chunk") 2 [1; 2] _ _ _ _)).
  - lia.
  - discriminate.
  - intros j Hj. exists (Some (js "429 Too Many Requests")).
    destruct j as [|[|j]]; [split; reflexivity | split; reflexivity | lia].
  - reflexivity.
Defined.

(** ** Scheduler: order and completeness (route.ts, lines 146-206) *)

Lemma filter_non_null_length {A} (l : list (option A)) :
  (List.length (filter_non_null l) <= List.length l)%nat.
Proof. induction l as [|[a|] l IH]; simpl; lia. Qed.

Lemma map_indexed_length {A B} (f : A -> nat -> B) (l : list A) : forall k,
  List.length (map_indexed f k l) = List.length l.
Proof. induction l as [|x l IH]; intros k; simpl; [|rewrite IH]; reflexivity. Qed.

Lemma filter_non_null_sorted {A B} (f : A -> nat -> option B) (index : B -> nat) :
  (forall x g v, f x g = Some v -> index v = g) ->
  forall l k,
    StronglySorted lt (map index (filter_non_null (map_indexed f k l)))
    /\ Forall (fun i => (k <= i)%nat)
              (map index (filter_non_null (map_indexed f k l))).
Proof.
  intros Hf. induction l as [|x l IH]; intros k; simpl.
  - split; constructor.
  - destruct (IH (S k)) as [Hs Hk].
    assert (Hk' : Forall (fun i => (k <= i)%nat)
                    (map index (filter_non_null (map_indexed f (S k) l)))).
    { eapply Forall_impl; [|exact Hk]. simpl. intros; lia. }
    destruct (f x k) as [v|] eqn:E; [|auto].
    simpl. rewrite (Hf x k v E). split.
    + constructor; [exact Hs|].
      eapply Forall_impl; [|exact Hk]. simpl. intros; lia.
    + constructor; [lia | exact Hk'].
Qed.

Lemma filter_non_null_complete {A B} (f : A -> nat -> option B) (content : B -> A) :
  (forall x g v, f x g = Some v -> content v = x) ->
  forall l k,
    (forall g x, nth_error l g = Some x -> f x (k + g)%nat <> None) ->
    map content (filter_non_null (map_indexed f k l)) = l.
Proof.
  intros Hf. induction l as [|x l IH]; intros k Hall; [reflexivity|].
  simpl. destruct (f x k) as [v|] eqn:E.
  - simpl. rewrite (Hf x k v E). f_equal. apply IH.
    intros g y Hy. replace (S k + g)%nat with (k + S g)%nat by lia.
    apply Hall. exact Hy.
  - exfalso. apply (Hall 0%nat x eq_refl). rewrite Nat.add_0_r. exact E.
Qed.

(** X9: the scheduler returns the vectors in the order of the chunks:
    their chunk indices increase strictly and stay below the number of
    chunks, so there is at most one vector per chunk; and when no embedding
    comes back null the texts of the vectors are the chunks, one for one. *)
Theorem vectors_in_chunk_order number service uuidv4 toISOString chunks fileName :
  exists vectors,
    processChunksInBatches number service uuidv4 toISOString chunks fileName
      = Returned vectors
    /\ StronglySorted lt (map (fun v => chunk_index (meta v)) vectors)
    /\ Forall (fun v => (chunk_index (meta v) < List.length chunks)%nat) vectors
    /\ (List.length vectors <= List.length chunks)%nat
    /\ ((forall g chunk, nth_error chunks g = Some chunk ->
                         embedded number service g chunk <> None) ->
        map (fun v => text (meta v)) vectors = chunks).
Proof.
  eexists. split; [apply processChunksInBatches_spec|].
  set (F := fun chunk g =>
              vector_of number service uuidv4 toISOString fileName
                (List.length chunks) g chunk).
  assert (Hindex : forall x g v, F x g = Some v -> chunk_index (meta v) = g).
  { intros x g v H. apply vector_of_some in H. tauto. }
  assert (Htext : forall x g v, F x g = Some v -> text (meta v) = x).
  { intros x g v H. apply vector_of_some in H. tauto. }
  split; [apply (filter_non_null_sorted F _ Hindex chunks 0)|].
  split; [|split].
  - apply Forall_forall. intros v Hv.
    destruct (vector_of_members number service uuidv4 toISOString chunks fileName v Hv)
      as (Hn & _).
    apply nth_error_Some. cbv zeta in Hn. rewrite Hn. discriminate.
  - etransitivity; [apply filter_non_null_length|].
    rewrite map_indexed_length. lia.
  - intros Hall. apply (filter_non_null_complete F _ Htext chunks 0).
    intros g x Hx HF. apply (Hall g x Hx).
    unfold F, vector_of in HF. simpl in HF.
    destruct (embedded number service g x); [discriminate | reflexivity].
Qed.

Lemma vectors_in_chunk_order_witness :
  exists vectors,
    processChunksInBatches Z service_ok sample_uuid sample_clock
      sample_chunks (js "a.txt") = Returned vectors
    /\ map (fun v => text (meta v)) vectors = sample_chunks.
Proof.
  destruct (vectors_in_chunk_order Z service_ok sample_uuid sample_clock
              sample_chunks (js "a.txt")) as (vectors & Hp & _ & _ & _ & Hall).
  exists vectors. split; [exact Hp|]. apply Hall.
  intros g chunk _. unfold embedded. rewrite generateEmbeddingWithRetry_body.
  discriminate.
Defined.

(** ** Upserter and handler: what reaches the store (route.ts, lines 208-366) *)

Lemma pieces_length {A} (n : nat) : (0 < n)%nat ->
  forall fuel (l : list A),
    (List.length l <= fuel)%nat ->
    List.length (pieces n fuel l) = ((List.length l + n - 1) / n)%nat.
Proof.
  intros Hn. induction fuel as [|fuel IH]; intros l Hl.
  - destruct l; [|simpl in Hl; lia]. simpl.
    symmetry. apply Nat.div_small. lia.
  - destruct l as [|x l].
    + simpl. symmetry. apply Nat.div_small. lia.
    + cbn [List.length] in Hl. cbn [pieces List.length]. rewrite IH
        by (rewrite length_skipn; change (List.length (x :: l)) with (S (List.length l)); lia).
      rewrite length_skipn.
      change (List.length (x :: l)) with (S (List.length l)).
      destruct (Nat.le_gt_cases n (S (List.length l))) as [Hge|Hlt].
      * replace (S (List.length l) + n - 1)%nat
          with ((S (List.length l) - n + n - 1) + 1 * n)%nat by lia.
        rewrite Nat.div_add by lia. lia.
      * replace (S (List.length l) - n)%nat with 0%nat by lia.
        rewrite (Nat.div_small (0 + n - 1)) by lia.
        apply (Nat.div_unique _ _ 1 (List.length l)); lia.
Qed.

Section StoreFacts.

Variable number : Type.
Variable service : nat -> nat -> api_response number.
Variables uuidv4 toISOString : nat -> jsstring.
Variable upsert_fails : nat -> bool.
Variable getPineconeIndex_throws : bool.
Variable toUpperCase : code_unit -> jsstring.
Variable toLowerCase : jsstring -> jsstring.

(** Whatever the store answers, submitting batches stores a prefix of
    them: all of them when no call is rejected, and otherwise those before
    the rejected one, the last batch submitted. *)
Lemma submit_all_prefix batches : forall st out st',
  submit_all number upsert_fails batches st = (out, st') ->
  exists k,
    stored st' = stored st ++ firstn k batches
    /\ match out with
       | Returned _ => k = List.length batches
                       /\ submitted st' = submitted st ++ batches
       | Thrown _ => (k < List.length batches)%nat
                     /\ submitted st' = submitted st ++ firstn (S k) batches
       end.
Proof.
  induction batches as [|b batches IH]; intros st out st' H.
  - simpl in H. inversion H; subst. exists 0%nat.
    rewrite !app_nil_r. auto.
  - cbn [submit_all] in H. unfold upsert in H.
    destruct (upsert_fails (List.length (submitted st))).
    + inversion H; subst. exists 0%nat. simpl. rewrite app_nil_r.
      split; [reflexivity|]. split; [lia | reflexivity].
    + apply IH in H. destruct H as (k & Hst & Hout).
      exists (S k). cbn [stored submitted] in *.
      rewrite <- !app_assoc in *. simpl in *.
      split; [exact Hst|].
      destruct out; [destruct Hout as [-> Hs]; auto|].
      destruct Hout as [Hk Hs]. split; [lia | exact Hs].
Qed.

(** The answers of the ingestion stage for a content that is not blank. *)
Lemma POST_answers fileName fileContent st :
  len (trim fileContent) <> 0 ->
  exists chunks vectors,
    splitTextIntoChunks toUpperCase fileContent 1500 200 = Some chunks
    /\ chunks <> []
    /\ processChunksInBatches number service uuidv4 toISOString chunks fileName
       = Returned vectors
    /\ POST number service uuidv4 toISOString upsert_fails
            getPineconeIndex_throws toUpperCase fileName fileContent st
       = if len vectors =? 0 then Some (NO_VECTORS, st)
         else if getPineconeIndex_throws then Some (INTERNAL_ERROR, st)
         else
           match submit_all number upsert_fails
                   (batches_of UPSERT_BATCH_SIZE vectors) st with
           | (Thrown _, st') => Some (STORE_FAILURE, st')
           | (Returned _, st') =>
               Some ({| status := 200;
                        payload := OkBody (List.length vectors)
                                          (List.length chunks) |}, st')
           end.
Proof.
  intros Hblank.
  destruct (splitTextIntoChunks_nonempty toUpperCase fileContent 1500 200)
    as (chunk & chunks & Hsplit); [lia|].
  exists (chunk :: chunks). eexists.
  split; [exact Hsplit|]. split; [discriminate|].
  split; [apply processChunksInBatches_spec|].
  rewrite (POST_after_split number service uuidv4 toISOString upsert_fails
             getPineconeIndex_throws toUpperCase fileName fileContent st
             (chunk :: chunks) Hblank Hsplit).
  change (len (chunk :: chunks) =? 0) with false. cbv iota zeta.
  rewrite upsert_loop_batches. reflexivity.
Qed.

Lemma POST_handler_cases req st :
  (exists r,
      POST_handler number service uuidv4 toISOString upsert_fails
        getPineconeIndex_throws toUpperCase toLowerCase req st = Some (r, st)
      /\ In r [NO_API_KEY; INTERNAL_ERROR; NO_DOCUMENT; BAD_TYPE; TOO_LARGE;
               PARSE_FAILURE; PDF_NO_TEXT; NO_READABLE_CONTENT])
  \/ (exists file fileContent,
        GOOGLE_API_KEY req = true
        /\ formData req = Returned (Some file)
        /\ is_allowed (fileExtension toLowerCase (name file)) = true
        /\ size file <= 10 * 1024 * 1024
        /\ decoded file = Returned fileContent
        /\ len (trim fileContent) <> 0
        /\ POST_handler number service uuidv4 toISOString upsert_fails
             getPineconeIndex_throws toUpperCase toLowerCase req st
           = POST number service uuidv4 toISOString upsert_fails
               getPineconeIndex_throws toUpperCase (name file) fileContent st).
Proof.
  unfold POST_handler.
  destruct (GOOGLE_API_KEY req) eqn:Ekey; cbn [negb];
    [|left; eexists; split; [reflexivity | simpl; tauto]].
  destruct (formData req) as [[file|]|e] eqn:Eform;
    [| left; eexists; split; [reflexivity | simpl; tauto]
     | left; eexists; split; [reflexivity | simpl; tauto]].
  cbv zeta.
  destruct (is_allowed (fileExtension toLowerCase (name file))) eqn:Eallowed;
    cbn [negb]; [|left; eexists; split; [reflexivity | simpl; tauto]].
  destruct (Z.gtb_spec (size file) (10 * 1024 * 1024)) as [Hbig|Hsmall];
    [left; eexists; split; [reflexivity | simpl; tauto]|].
  destruct (decoded file) as [fileContent|e] eqn:Edec;
    [|left; eexists; split; [reflexivity | simpl; tauto]].
  destruct (Z.eqb_spec (len (trim fileContent)) 0) as [Hblank|Hfull].
  - left. destruct (JS.eqb _ _); cbn [andb];
      eexists; (split; [reflexivity | simpl; tauto]).
  - right. exists file, fileContent. rewrite andb_false_r.
    repeat split; auto.
Qed.

End StoreFacts.

Ltac responses_differ :=
  let H := fresh in intros H; vm_compute in H; discriminate H.

Section HandlerClaims.

Variable number : Type.
Variable service : nat -> nat -> api_response number.
Variables uuidv4 toISOString : nat -> jsstring.
Variable upsert_fails : nat -> bool.
Variable getPineconeIndex_throws : bool.
Variable toUpperCase : code_unit -> jsstring.
Variable toLowerCase : jsstring -> jsstring.

(** X11: the handler answers every request, with status 200, 400 or 500,
    and with the success report exactly when the status is 200.  Two of its
    error answers are never given: "The file appears to be empty or contains
    no readable text." (a blank content is answered earlier) and "No content
    could be extracted from the document" (the segmenter always returns a
    chunk). *)
Theorem handler_always_answers req st :
  exists r st',
    POST_handler number service uuidv4 toISOString upsert_fails
      getPineconeIndex_throws toUpperCase toLowerCase req st = Some (r, st')
    /\ r <> EMPTY_FILE
    /\ r <> NO_CONTENT
    /\ (status r = 200 \/ status r = 400 \/ status r = 500)
    /\ (status r = 200 <-> exists n total, payload r = OkBody n total).
Proof.
  destruct (POST_handler_cases number service uuidv4 toISOString upsert_fails
              getPineconeIndex_throws toUpperCase toLowerCase req st)
    as [(r & Hr & Hin) | (file & fileContent & _ & _ & _ & _ & _ & Hblank & Hr)].
  - exists r, st. split; [exact Hr|].
    simpl in Hin.
    repeat (destruct Hin as [<-|Hin]; [
      split; [responses_differ|]; split; [responses_differ|];
      split; [simpl; auto|];
      split; [intros H; discriminate H | intros (n & total & H); discriminate H] |]).
    destruct Hin.
  - rewrite Hr.
    destruct (POST_answers number service uuidv4 toISOString upsert_fails
                getPineconeIndex_throws toUpperCase (name file) fileContent st Hblank)
      as (chunks & vectors & _ & _ & _ & Hpost).
    rewrite Hpost.
    destruct (len vectors =? 0);
      [|destruct getPineconeIndex_throws;
        [|destruct (submit_all _ _ _ _) as [[u|e] st']]];
      eexists _, _; (split; [reflexivity|]);
      (split; [responses_differ|]); (split; [responses_differ|]);
      (split; [simpl; auto|]);
      (split; [intros H; try discriminate H; do 2 eexists; reflexivity
              | intros (n & total & H); try discriminate H; reflexivity]).
Qed.

(** X12: the handler changes the store only for a valid upload: if the
    store after the call differs from the store before, then the API key was
    set, the request held a file of an allowed type and of at most 10 MB
    whose decoded content is not blank, and the answer is either the success
    report or the store failure. *)
Theorem store_changes_only_for_valid_upload req st r st' :
  POST_handler number service uuidv4 toISOString upsert_fails
    getPineconeIndex_throws toUpperCase toLowerCase req st = Some (r, st') ->
  st' <> st ->
  GOOGLE_API_KEY req = true
  /\ (exists file fileContent,
        formData req = Returned (Some file)
        /\ is_allowed (fileExtension toLowerCase (name file)) = true
        /\ size file <= 10 * 1024 * 1024
        /\ decoded file = Returned fileContent
        /\ len (trim fileContent) <> 0)
  /\ (status r = 200 \/ r = STORE_FAILURE).
Proof.
  intros Hpost Hchanged.
  destruct (POST_handler_cases number service uuidv4 toISOString upsert_fails
              getPineconeIndex_throws toUpperCase toLowerCase req st)
    as [(r0 & Hr & _) | (file & fileContent & Hkey & Hform & Hall & Hsize & Hdec & Hblank & Hr)].
  - rewrite Hr in Hpost. inversion Hpost; subst. contradiction.
  - split; [exact Hkey|]. split; [exists file, fileContent; auto|].
    rewrite Hr in Hpost.
    destruct (POST_answers number service uuidv4 toISOString upsert_fails
                getPineconeIndex_throws toUpperCase (name file) fileContent st Hblank)
      as (chunks & vectors & _ & _ & _ & Hp).
    rewrite Hp in Hpost.
    destruct (len vectors =? 0);
      [inversion Hpost; subst; contradiction|].
    destruct getPineconeIndex_throws;
      [inversion Hpost; subst; contradiction|].
    destruct (submit_all _ _ _ _) as [[u|e] st0]; inversion Hpost; subst.
    + left. reflexivity.
    + right. reflexivity.
Qed.

End HandlerClaims.

Lemma store_changes_only_for_valid_upload_witness :
  GOOGLE_API_KEY sample_request = true
  /\ (status {| status := 200; payload := OkBody 1 1 |} = 200
      \/ {| status := 200; payload := OkBody 1 1 |} = STORE_FAILURE).
Proof.
  pose proof (store_changes_only_for_valid_upload Z service_ok sample_uuid
                sample_clock (fun _ => false) false asciiToUpperCase
                asciiToLowerCase sample_request empty_store
                {| status := 200; payload := OkBody 1 1 |} sample_store_after)
    as H.
  destruct H as (Hkey & _ & Hanswer).
  - vm_compute. reflexivity.
  - intros H. discriminate H.
  - split; [exact Hkey | exact Hanswer].
Defined.

(** ** The type of the file (route.ts, lines 229-230) *)

Lemma split_on_no_sep sep s : ~ In sep s -> split_on sep s = [s].
Proof.
  induction s as [|c r IH]; intros H; [reflexivity|].
  simpl. destruct (N.eqb_spec c sep) as [->|_].
  - exfalso. apply H. left. reflexivity.
  - rewrite IH; [reflexivity|]. intros Hin. apply H. right. exact Hin.
Qed.

Lemma split_on_last_piece sep b : ~ In sep b ->
  forall a, exists init,
    init <> [] /\ split_on sep (a ++ sep :: b) = init ++ [b].
Proof.
  intros Hb. induction a as [|c a (init & Hne & IH)].
  - exists [[]]. split; [discriminate|].
    simpl. rewrite N.eqb_refl, (split_on_no_sep sep b Hb). reflexivity.
  - cbn [app split_on]. rewrite IH.
    destruct (c =? sep)%N.
    + exists ([] :: init). split; [discriminate | reflexivity].
    + destruct init as [|piece init]; [congruence|].
      exists ((c :: piece) :: init). split; [discriminate | reflexivity].
Qed.

(** X13: the type of the upload is read from what follows the last dot of
    its name, lower-cased, whatever comes before; a name without any dot is
    read as being its own extension, so that both names are accepted or
    refused alike. *)
Theorem extension_is_last_segment toLowerCase stem extension :
  ~ In DOT extension ->
  fileExtension toLowerCase (stem ++ DOT :: extension)
    = js "." ++ toLowerCase extension
  /\ fileExtension toLowerCase extension = js "." ++ toLowerCase extension
  /\ is_allowed (fileExtension toLowerCase (stem ++ DOT :: extension))
     = is_allowed (fileExtension toLowerCase extension).
Proof.
  intros H.
  assert (H1 : fileExtension toLowerCase (stem ++ DOT :: extension)
               = js "." ++ toLowerCase extension).
  { unfold fileExtension.
    destruct (split_on_last_piece DOT extension H stem) as (init & _ & ->).
    rewrite last_last. reflexivity. }
  assert (H2 : fileExtension toLowerCase extension = js "." ++ toLowerCase extension).
  { unfold fileExtension. rewrite (split_on_no_sep DOT extension H). reflexivity. }
  split; [exact H1|]. split; [exact H2|]. rewrite H1, H2. reflexivity.
Qed.

Lemma extension_is_last_segment_witness :
  fileExtension asciiToLowerCase (js "report.v2.PDF") = js ".pdf"
  /\ fileExtension asciiToLowerCase (js "PDF") = js ".pdf"
  /\ is_allowed (fileExtension asciiToLowerCase (js "report.v2.PDF"))
     = is_allowed (fileExtension asciiToLowerCase (js "PDF")).
Proof.
  apply (extension_is_last_segment asciiToLowerCase (js "report.v2") (js "PDF")).
  vm_compute. intros H. repeat (destruct H as [H|H]; [discriminate H|]). exact H.
Defined.

(* ===================================================================== *)
(** * The pipeline for any thrown value *)
(* ===================================================================== *)

(** ** Embedder *)

Section AnyThrowEmbedder.

Variable number : Type.
Variable api : nat -> any_response number.
Variable chunk : jsstring.

(** The function as one equation, in the shape of the source. *)
Lemma generateEmbeddingWithRetry_any_body retryCount w :
  generateEmbeddingWithRetry_any number api chunk retryCount w =
  match api (requests w) with
  | Answered (Resolved values) =>
      (Returned (non_empty_or_null number values), sent w chunk)
  | Answered (Rejected errorMessage) =>
      if is_rate_limit errorMessage then
        if (retryCount <? MAX_RETRIES)%nat then
          generateEmbeddingWithRetry_any number api chunk (S retryCount)
            (delay (BASE_RETRY_DELAY * 2 ^ Z.of_nat retryCount) (sent w chunk))
        else (Returned None, sent w chunk)
      else (Returned None, sent w chunk)
  | RejectedUnreadable raised => (Thrown raised, sent w chunk)
  end.
Proof.
  rewrite generateEmbeddingWithRetry_any_unfold_eq.
  unfold generateEmbeddingWithRetry_any_unfold.
  destruct (api (requests w)) as [[values|errorMessage]|raised]; simpl;
    try reflexivity.
  destruct (is_rate_limit errorMessage); simpl; [|reflexivity].
  destruct (lt_dec retryCount MAX_RETRIES), (Nat.ltb_spec retryCount MAX_RETRIES);
    simpl; try lia; reflexivity.
Qed.

(** What a call comes back with: null or a non-empty vector, or what the
    [catch] block raised on an unreadable rejection. *)
Definition settled (out : outcome (option (embedding number))) : Prop :=
  match out with
  | Returned r => r = None \/ exists e, r = Some e /\ e <> []
  | Thrown raised => exists n, api n = RejectedUnreadable raised
  end.

Lemma non_empty_or_null_settled values :
  settled (Returned (non_empty_or_null number values)).
Proof.
  simpl. destruct (non_empty_or_null number values) as [e|] eqn:E; [|auto].
  right. exists e. apply non_empty_or_null_some in E. tauto.
Qed.

Lemma generateEmbeddingWithRetry_any_settles :
  forall k retryCount w,
    (MAX_RETRIES - retryCount <= k)%nat ->
    exists out w',
      generateEmbeddingWithRetry_any number api chunk retryCount w = (out, w')
      /\ settled out.
Proof.
  induction k as [|k IH]; intros retryCount w Hk;
    rewrite generateEmbeddingWithRetry_any_body;
    destruct (api (requests w)) as [[values|errorMessage]|raised] eqn:E;
    try (eexists _, _; split; [reflexivity | apply non_empty_or_null_settled]);
    try (eexists _, _; split; [reflexivity | simpl; eauto]);
    destruct (is_rate_limit errorMessage);
    try (eexists _, _; split; [reflexivity | simpl; auto]);
    destruct (Nat.ltb_spec retryCount MAX_RETRIES);
    try (eexists _, _; split; [reflexivity | simpl; auto]); try lia.
  apply IH. lia.
Qed.

(** What a call adds to the trace, however it ends. *)
Lemma generateEmbeddingWithRetry_any_trace :
  forall k retryCount w,
    (MAX_RETRIES - retryCount <= k)%nat ->
    (retryCount <= MAX_RETRIES)%nat ->
    exists out w' added,
      generateEmbeddingWithRetry_any number api chunk retryCount w = (out, w')
      /\ log w' = log w ++ added
      /\ requests w' = (requests w + request_count added)%nat
      /\ (1 <= request_count added <= MAX_RETRIES + 1 - retryCount)%nat
      /\ 0 <= total_wait added
         <= BASE_RETRY_DELAY * (2 ^ Z.of_nat MAX_RETRIES - 2 ^ Z.of_nat retryCount).
Proof.
  assert (Hone : forall retryCount w (out : outcome (option (embedding number))),
             (retryCount <= MAX_RETRIES)%nat ->
             exists out' w' added,
               (out, sent w chunk) = (out', w')
               /\ log w' = log w ++ added
               /\ requests w' = (requests w + request_count added)%nat
               /\ (1 <= request_count added <= MAX_RETRIES + 1 - retryCount)%nat
               /\ 0 <= total_wait added
                  <= BASE_RETRY_DELAY
                     * (2 ^ Z.of_nat MAX_RETRIES - 2 ^ Z.of_nat retryCount)).
  { intros retryCount w out Hle.
    exists out, (sent w chunk), [Request chunk].
    split; [reflexivity|]. split; [reflexivity|].
    cbn [sent request_count total_wait requests].
    split; [lia|]. split; [lia|].
    split; [lia|].
    assert (2 ^ Z.of_nat retryCount <= 2 ^ Z.of_nat MAX_RETRIES)
      by (apply Z.pow_le_mono_r; lia).
    unfold BASE_RETRY_DELAY. lia. }
  induction k as [|k IH]; intros retryCount w Hk Hle;
    rewrite generateEmbeddingWithRetry_any_body;
    destruct (api (requests w)) as [[values|errorMessage]|raised];
    try (apply Hone; exact Hle);
    destruct (is_rate_limit errorMessage); try (apply Hone; exact Hle);
    destruct (Nat.ltb_spec retryCount MAX_RETRIES) as [Hlt|Hge];
    try (apply Hone; exact Hle); try lia.
  destruct (IH (S retryCount)
              (delay (BASE_RETRY_DELAY * 2 ^ Z.of_nat retryCount) (sent w chunk)))
    as (out & w' & added & E & Hlog & Hreq & Hcount & Hwait); [lia | lia |].
  exists out, w',
    (Request chunk :: Wait (BASE_RETRY_DELAY * 2 ^ Z.of_nat retryCount) :: added).
  split; [exact E|].
  split; [rewrite Hlog; cbn [delay sent log]; rewrite <- !app_assoc; reflexivity|].
  split; [rewrite Hreq; cbn [delay sent requests request_count]; lia|].
  split; [cbn [request_count]; lia|].
  cbn [total_wait]. rewrite pow2_succ in Hwait.
  pose proof (pow2_pos retryCount). unfold BASE_RETRY_DELAY in *. lia.
Qed.

End AnyThrowEmbedder.

(** On a service whose rejections are all readable the two embeddings of
    the call agree. *)
Lemma generateEmbeddingWithRetry_any_readable number api chunk :
  forall k retryCount w,
    (MAX_RETRIES - retryCount <= k)%nat ->
    generateEmbeddingWithRetry_any number (readable api) chunk retryCount w
    = generateEmbeddingWithRetry number api chunk retryCount w.
Proof.
  induction k as [|k IH]; intros retryCount w Hk;
    rewrite generateEmbeddingWithRetry_any_body, generateEmbeddingWithRetry_body;
    unfold readable, embedContent, sent;
    destruct (api (requests w)) as [values|errorMessage]; try reflexivity;
    destruct (is_rate_limit errorMessage); try reflexivity;
    destruct (Nat.ltb_spec retryCount MAX_RETRIES); try reflexivity; try lia.
  apply (IH (S retryCount)). lia.
Qed.




(** X7: whatever the service does, rejections with unreadable values
    included, one call of the embedder ends after at least one and at most
    four requests and at most 7000 ms of waiting between them, its trace
    holding as many requests as it counted; it ends by returning null or a
    non-empty vector, or by throwing what the [catch] block raised on one of
    the first four answers. *)
Theorem embedder_work_is_bounded number api chunk :
  exists out w',
    generateEmbeddingWithRetry_any number api chunk 0 world0 = (out, w')
    /\ (1 <= requests w' <= 4)%nat
    /\ request_count (log w') = requests w'
    /\ 0 <= total_wait (log w') <= 7000
    /\ match out with
       | Returned r => r = None \/ exists e, r = Some e /\ e <> []
       | Thrown raised => exists n, api n = RejectedUnreadable raised
       end.
Proof.
  destruct (generateEmbeddingWithRetry_any_trace number api chunk MAX_RETRIES 0 world0)
    as (out & w' & added & E & Hlog & Hreq & Hcount & Hwait);
    [unfold MAX_RETRIES; lia | unfold MAX_RETRIES; lia |].
  destruct (generateEmbeddingWithRetry_any_settles number api chunk MAX_RETRIES 0 world0)
    as (out2 & w2 & E2 & Hout); [unfold MAX_RETRIES; lia|].
  rewrite E in E2. inversion E2; subst out2 w2.
  exists out, w'. simpl in Hlog, Hreq. rewrite Hlog, Hreq.
  split; [exact E|]. split; [unfold MAX_RETRIES in Hcount; lia|].
  split; [reflexivity|]. split; [exact Hwait | exact Hout].
Qed.

(** ** Scheduler and handler *)

Lemma promise_all_length {A} (promises : list (outcome A)) results :
  promise_all promises = Returned results ->
  List.length results = List.length promises.
Proof.
  revert results. induction promises as [|[a|e] promises IH]; intros results H;
    simpl in H; [inversion H; reflexivity | | discriminate].
  destruct (promise_all promises) as [l|e]; [|discriminate].
  inversion H; subst. simpl. rewrite (IH l eq_refl). reflexivity.
Qed.

Lemma map_indexed_ext {A B} (f g : A -> nat -> B) (l : list A) :
  (forall x k, f x k = g x k) ->
  forall k, map_indexed f k l = map_indexed g k l.
Proof.
  intros H. induction l as [|x l IH]; intros k; simpl; [reflexivity|].
  rewrite H, IH. reflexivity.
Qed.

Section AnyThrowPipeline.

Variable number : Type.
Variable service : nat -> nat -> any_response number.
Variables uuidv4 toISOString : nat -> jsstring.

(** The loop as one equation, in the shape of the source. *)
Lemma batch_loop_any_body chunks fileName i vectors :
  batch_loop_any number service uuidv4 toISOString chunks fileName i vectors =
  if (i <? List.length chunks)%nat then
    match promise_all
            (map_indexed
               (embed_task_any number service uuidv4 toISOString fileName
                  (List.length chunks) i (i / BATCH_SIZE + 1))
               0%nat
               (slice chunks (Z.of_nat i) (Z.of_nat (i + BATCH_SIZE)))) with
    | Returned batchResults =>
        batch_loop_any number service uuidv4 toISOString chunks fileName
          (i + BATCH_SIZE) (vectors ++ filter_non_null batchResults)
    | Thrown e => Thrown e
    end
  else Returned vectors.
Proof.
  rewrite batch_loop_any_unfold_eq. unfold batch_loop_any_unfold.
  destruct (lt_dec i (List.length chunks)), (Nat.ltb_spec i (List.length chunks));
    try lia; simpl; [|reflexivity].
  destruct (promise_all _); reflexivity.
Qed.

(** When the scheduler returns, it returns at most one vector per chunk. *)
Lemma batch_loop_any_length chunks fileName :
  forall m i vectors result,
    (List.length chunks - i <= m)%nat ->
    batch_loop_any number service uuidv4 toISOString chunks fileName i vectors
      = Returned result ->
    (List.length result <= List.length vectors + (List.length chunks - i))%nat.
Proof.
  induction m as [|m IH]; intros i vectors result Hm H;
    rewrite batch_loop_any_body in H;
    destruct (Nat.ltb_spec i (List.length chunks)) as [Hlt|Hge]; try lia;
    try (inversion H; subst; lia).
  destruct (promise_all _) as [batchResults|e] eqn:E; [|discriminate].
  apply promise_all_length in E.
  rewrite map_indexed_length, slice_nat in E.
  apply IH in H; [|unfold BATCH_SIZE in *; lia].
  rewrite length_app in H.
  pose proof (filter_non_null_length batchResults) as Hf.
  rewrite E in Hf. rewrite length_firstn, length_skipn in Hf.
  unfold BATCH_SIZE in *. lia.
Qed.

End AnyThrowPipeline.

(** On a service whose rejections are all readable the two embeddings of
    the scheduler and of the handler agree. *)
Lemma processChunksInBatches_any_readable number service uuidv4 toISOString
    chunks fileName :
  processChunksInBatches_any number (fun g => readable (service g))
    uuidv4 toISOString chunks fileName
  = processChunksInBatches number service uuidv4 toISOString chunks fileName.
Proof.
  unfold processChunksInBatches_any, processChunksInBatches.
  assert (Htask : forall total i b x k,
             embed_task_any number (fun g => readable (service g))
               uuidv4 toISOString fileName total i b x k
             = embed_task number service uuidv4 toISOString fileName total i b x k).
  { intros. unfold embed_task_any, embed_task.
    rewrite (generateEmbeddingWithRetry_any_readable number _ _ MAX_RETRIES) by lia.
    reflexivity. }
  assert (H : forall m i vectors,
             (List.length chunks - i <= m)%nat ->
             batch_loop_any number (fun g => readable (service g))
               uuidv4 toISOString chunks fileName i vectors
             = batch_loop number service uuidv4 toISOString chunks fileName i vectors).
  { induction m as [|m IH]; intros i vectors Hm;
      rewrite batch_loop_any_body, batch_loop_body;
      destruct (Nat.ltb_spec i (List.length chunks)); try lia; try reflexivity.
    rewrite (map_indexed_ext _ _ _
               (Htask (List.length chunks) i (i / BATCH_SIZE + 1)%nat)).
    destruct (promise_all _); [|reflexivity].
    apply IH. unfold BATCH_SIZE. lia. }
  apply (H (List.length chunks)). lia.
Qed.

Lemma POST_any_readable number service uuidv4 toISOString upsert_fails
    getPineconeIndex_throws toUpperCase fileName fileContent st :
  POST_any number (fun g => readable (service g)) uuidv4 toISOString upsert_fails
    getPineconeIndex_throws toUpperCase fileName fileContent st
  = POST number service uuidv4 toISOString upsert_fails
      getPineconeIndex_throws toUpperCase fileName fileContent st.
Proof.
  unfold POST_any, POST.
  destruct (len (trim fileContent) =? 0); [reflexivity|].
  destruct (splitTextIntoChunks toUpperCase fileContent 1500 200) as [chunks|];
    [|reflexivity].
  rewrite processChunksInBatches_any_readable. reflexivity.
Qed.

(** X10: for a content that is not blank the ingestion stage answers in
    one of five ways, whatever the embedding service does.  It answers 500
    with the store untouched when an exception left the scheduler, when no
    chunk could be embedded, or when the index cannot be obtained; it answers
    500 after the store rejected a batch, and the store then holds the
    batches before that one; it answers 200 only when every vector has been
    stored, in order, in [ceil (n / 100)] batches, and the report then counts
    the vectors and the chunks, the former at least one and at most the
    latter. *)
Theorem ingestion_answers number service uuidv4 toISOString upsert_fails
    getPineconeIndex_throws toUpperCase fileName fileContent st :
  len (trim fileContent) <> 0 ->
  exists chunks r st',
    splitTextIntoChunks toUpperCase fileContent 1500 200 = Some chunks
    /\ POST_any number service uuidv4 toISOString upsert_fails
         getPineconeIndex_throws toUpperCase fileName fileContent st
       = Some (r, st')
    /\ ((exists raised,
           processChunksInBatches_any number service uuidv4 toISOString
             chunks fileName = Thrown raised
           /\ r = INTERNAL_ERROR /\ st' = st)
        \/ exists vectors,
             processChunksInBatches_any number service uuidv4 toISOString
               chunks fileName = Returned vectors
             /\ let batches := batches_of UPSERT_BATCH_SIZE vectors in
                (r = NO_VECTORS /\ vectors = [] /\ st' = st)
                \/ (r = INTERNAL_ERROR /\ getPineconeIndex_throws = true /\ st' = st)
                \/ (r = STORE_FAILURE
                    /\ exists k, (k < List.length batches)%nat
                                 /\ stored st' = stored st ++ firstn k batches
                                 /\ submitted st'
                                    = submitted st ++ firstn (S k) batches)
                \/ (r = {| status := 200;
                           payload := OkBody (List.length vectors)
                                             (List.length chunks) |}
                    /\ (1 <= List.length vectors <= List.length chunks)%nat
                    /\ stored st' = stored st ++ batches
                    /\ submitted st' = submitted st ++ batches
                    /\ List.concat batches = vectors
                    /\ List.length batches
                       = ((List.length vectors + 99) / 100)%nat)).
Proof.
  intros Hblank.
  destruct (splitTextIntoChunks_nonempty toUpperCase fileContent 1500 200)
    as (chunk & chunks & Hsplit); [lia|].
  exists (chunk :: chunks).
  unfold POST_any.
  destruct (Z.eqb_spec (len (trim fileContent)) 0); [contradiction|].
  rewrite Hsplit. change (len (chunk :: chunks) =? 0) with false. cbv iota.
  destruct (processChunksInBatches_any number service uuidv4 toISOString
              (chunk :: chunks) fileName) as [vectors|raised] eqn:Hproc.
  2:{ exists INTERNAL_ERROR, st. split; [reflexivity|]. split; [reflexivity|].
      left. exists raised. auto. }
  assert (Hlen : (List.length vectors <= List.length (chunk :: chunks))%nat).
  { unfold processChunksInBatches_any in Hproc.
    apply (batch_loop_any_length number service uuidv4 toISOString _ _
             (List.length (chunk :: chunks))) in Hproc; [|lia].
    simpl in *. lia. }
  destruct (Z.eqb_spec (len vectors) 0) as [Hz|Hnz].
  { exists NO_VECTORS, st. split; [reflexivity|]. split; [reflexivity|].
    right. exists vectors. split; [reflexivity|]. left.
    repeat split. destruct vectors; [reflexivity | unfold len in Hz; simpl in Hz; lia]. }
  destruct getPineconeIndex_throws eqn:Eindex.
  { exists INTERNAL_ERROR, st. split; [reflexivity|]. split; [reflexivity|].
    right. exists vectors. split; [reflexivity|]. right. left. auto. }
  rewrite upsert_loop_batches.
  destruct (submit_all number upsert_fails (batches_of UPSERT_BATCH_SIZE vectors) st)
    as [[u|e] st'] eqn:Esub;
    apply submit_all_prefix in Esub; destruct Esub as (k & Hst & Hk & Hsub).
  - eexists _, st'. split; [reflexivity|]. split; [reflexivity|].
    right. exists vectors. split; [reflexivity|]. cbv zeta. right. right. right.
    split; [reflexivity|].
    split; [split; [|exact Hlen];
            destruct vectors; [unfold len in Hnz; simpl in Hnz; lia | simpl; lia]|].
    subst k. rewrite firstn_all in Hst.
    split; [exact Hst|]. split; [exact Hsub|].
    split; [apply pieces_concat; [unfold UPSERT_BATCH_SIZE; lia | lia]|].
    unfold batches_of.
    rewrite pieces_length; [| unfold UPSERT_BATCH_SIZE; lia | lia].
    unfold UPSERT_BATCH_SIZE. f_equal. lia.
  - eexists _, st'. split; [reflexivity|]. split; [reflexivity|].
    right. exists vectors. split; [reflexivity|]. cbv zeta. right. right. left.
    split; [reflexivity|]. exists k. auto.
Qed.

Lemma ingestion_answers_witness :
  exists chunks r st',
    splitTextIntoChunks asciiToUpperCase tiny_document 1500 200 = Some chunks
    /\ POST_any Z (fun _ => service_unreadable) sample_uuid sample_clock
         (fun _ => false) false asciiToUpperCase (js "a.txt") tiny_document
         empty_store
       = Some (r, st').
Proof.
  destruct (ingestion_answers Z (fun _ => service_unreadable) sample_uuid
              sample_clock (fun _ => false) false asciiToUpperCase
              (js "a.txt") tiny_document empty_store)
    as (chunks & r & st' & Hs & Hpost & _).
  - vm_compute. intros H; discriminate H.
  - exists chunks, r, st'. auto.
Defined.

(** With a service whose first answer cannot be read, the exception leaves
    the scheduler and the handler answers 500, the store untouched. *)
Example unreadable_rejection_is_answered_500 :
  POST_any Z (fun _ => service_unreadable) sample_uuid sample_clock
    (fun _ => false) false asciiToUpperCase (js "a.txt") tiny_document empty_store
  = Some (INTERNAL_ERROR, empty_store).
Proof. vm_compute. reflexivity. Qed.
